(** * vector_tree: the drift tree and its subtree view

    A verification development for [vector_tree/drift_tree.h]: the
    drift-encoded flat tree [vt::drift_tree] and the lazy subtree iterator
    [vt::subtree].

    Conventions of the embedding.
    - [drift_t] and [level_t] are [size_t]; a value is a [Z] in
      [0, 2^64) and every arithmetic operation of the source is followed
      by [wrap].
    - The node storage [vector_m] is a [list]; a vector iterator is the
      index it points at ([end()] is the length), a value-initialised
      iterator is [None].
    - A call either returns ([Done]), stops on an [assert]
      ([AssertionFailed]), raises [std::length_error] ([LengthError]: the
      vector is at [max_size()]), or has no defined behaviour ([Undefined]:
      an element access outside the storage). Allocation is taken to
      succeed below [max_size()].
    - An exception can be caught, and the tree object lives on: a
      [LengthError] carries the contents of [vector_m] at the moment of the
      throw, with every store the call had made before it. The vector call
      that throws changes nothing itself. A failed [assert] ends the
      program and leaves no state. *)

From Stdlib Require Import ZArith Lia Bool.
From stdpp Require Import base list.

Local Open Scope Z_scope.

(** ** Machine integers *)

Definition drift_modulus : Z := 2 ^ 64.

Definition wrap (z : Z) : Z := z mod drift_modulus.

(** ** Outcomes of a call *)

(** [St] is the state a caught exception leaves behind, [A] the value a
    returning call gives. *)
Inductive outcome (St A : Type) : Type :=
| Done (a : A)
| AssertionFailed
| LengthError (vec : St)
| Undefined.

Arguments Done {St A} a.
Arguments AssertionFailed {St A}.
Arguments LengthError {St A} vec.
Arguments Undefined {St A}.

Definition bind {St A B : Type} (m : outcome St A) (k : A -> outcome St B) : outcome St B :=
  match m with
  | Done a => k a
  | AssertionFailed => AssertionFailed
  | LengthError vec => LengthError vec
  | Undefined => Undefined
  end.

Notation "x <- m ;; k" := (bind m (fun x => k))
  (at level 20, m at level 99, k at level 200, only parsing).
Notation "' pat <- m ;; k" := (bind m (fun x => match x with pat => k end))
  (at level 20, pat pattern, m at level 99, k at level 200, only parsing).
Notation "m ;; k" := (bind m (fun _ => k))
  (at level 100, k at level 200, only parsing, right associativity).

(** [assert(cond)] *)
Definition assert_that {St : Type} (cond : bool) : outcome St unit :=
  if cond then Done tt else AssertionFailed.

(** ** Nodes *)

Record drift_node (data_t : Type) : Type := Node { drift : Z; data : data_t }.

Arguments Node {data_t} drift data.
Arguments drift {data_t} d.
Arguments data {data_t} d.

Definition is_leaf {data_t} (n : drift_node data_t) : bool := negb (drift n =? 0).
Definition has_children {data_t} (n : drift_node data_t) : bool := drift n =? 0.

(** [n.drift = d] *)
Definition set_drift {data_t} (d : Z) (n : drift_node data_t) : drift_node data_t :=
  {| drift := d; data := data n |}.

(** ** The subtree iterator state *)

Record iterator : Type := Iterator { it_m : option nat; level_m : Z }.

Section DriftTree.

Context {data_t : Type}.

Abbreviation node_t := (drift_node data_t).
Abbreviation tree := (list (drift_node data_t)).

(** [max_size()] of the node vector: the standard library's bound on the
    number of elements, a [size_type] value that depends on the
    implementation and on the node size. *)
Variable max_size : Z.

(** ** The vector operations the tree delegates to *)

Definition size (t : tree) : Z := Z.of_nat (length t).

(** [*i] for a vector iterator [i] *)
Definition deref (t : tree) (i : nat) : outcome tree node_t :=
  match t !! i with
  | Some n => Done n
  | None => Undefined
  end.

(** [i->drift = d] *)
Definition store_drift (i : nat) (d : Z) (t : tree) : outcome tree tree :=
  match t !! i with
  | Some _ => Done (alter (set_drift d) i t)
  | None => Undefined
  end.

(** [back()] *)
Definition back (t : tree) : outcome tree node_t :=
  match last t with
  | Some n => Done n
  | None => Undefined
  end.

(** [back().drift = d] *)
Definition store_back_drift (d : Z) (t : tree) : outcome tree tree :=
  match t with
  | [] => Undefined
  | _ :: _ => store_drift (Nat.pred (length t)) d t
  end.

(** A vector call that raises [std::length_error] finds the new size too
    large before it touches the storage: it leaves the vector it was given.

    [vector_m.emplace(pos, drift, data)]: the new element sits at [pos]. *)
Definition vec_emplace (pos : nat) (n : node_t) (t : tree) : outcome tree (tree * nat) :=
  if (length t <? pos)%nat then Undefined
  else if max_size <=? size t then LengthError t
  else Done (take pos t ++ n :: drop pos t, pos).

(** [vector_m.emplace_back(drift, data)] *)
Definition vec_emplace_back (n : node_t) (t : tree) : outcome tree tree :=
  if max_size <=? size t then LengthError t else Done (t ++ [n]).

(** [vector_m.insert(pos, first, last)]: returns the position of the first
    inserted element, or [pos] when the range is empty. *)
Definition vec_insert (pos : nat) (range : tree) (t : tree) : outcome tree (tree * nat) :=
  if (length t <? pos)%nat then Undefined
  else match range with
       | [] => Done (t, pos)
       | _ :: _ =>
           if max_size - size t <? size range then LengthError t
           else Done (take pos t ++ range ++ drop pos t, pos)
       end.

(** [vector_m.pop_back()] *)
Definition vec_pop_back (t : tree) : outcome tree tree :=
  match t with
  | [] => Undefined
  | _ :: _ => Done (removelast t)
  end.

(** [vector_m.erase(pos)]: returns the position following the removed one. *)
Definition vec_erase (pos : nat) (t : tree) : outcome tree (tree * nat) :=
  if (pos <? length t)%nat then Done (take pos t ++ drop (S pos) t, pos)
  else Undefined.

(** [vector_m.erase(first, last)] *)
Definition vec_erase_range (first last : nat) (t : tree) : outcome tree (tree * nat) :=
  if (first <=? last)%nat && (last <=? length t)%nat
  then Done (take first t ++ drop last t, first)
  else Undefined.

(** ** drift_tree *)

Definition DRIFT_CHILD : Z := 0.
Definition DRIFT_SIBLING : Z := 1.

Definition push_root (t : tree) (value : data_t) : outcome tree tree :=
  let drift0 := 0 in
  '(t1, _) <- vec_emplace 0%nat (Node drift0 value) t ;;
  b <- back t1 ;;
  store_back_drift (wrap (drift b + 1)) t1.

Definition push_back_drifted (t : tree) (d : data_t) (back_drift : Z) : outcome tree tree :=
  assert_that (0 <? size t) ;;
  b <- back t ;;
  assert_that (back_drift <? wrap (1 + drift b)) ;;
  let drift1 := wrap (wrap (1 + drift b) - back_drift) in
  t1 <- store_back_drift back_drift t ;;
  vec_emplace_back (Node drift1 d) t1.

Definition push_back_child (t : tree) (d : data_t) : outcome tree tree :=
  push_back_drifted t d DRIFT_CHILD.

Definition push_back_sibling (t : tree) (d : data_t) : outcome tree tree :=
  push_back_drifted t d DRIFT_SIBLING.

Definition push_back_level (t : tree) (d : data_t) (level : Z) : outcome tree tree :=
  assert_that (0 <? size t) ;;
  b <- back t ;;
  assert_that (level <? drift b) ;;
  t1 <- store_back_drift (wrap (drift b - level)) t ;;
  vec_emplace_back (Node (wrap (1 + level)) d) t1.

Definition pop_back (t : tree) : outcome tree tree :=
  assert_that (1 <? size t) ;;
  b <- back t ;;
  let drift1 := wrap (drift b - 1) in
  t1 <- vec_pop_back t ;;
  b1 <- back t1 ;;
  store_back_drift (wrap (drift b1 + drift1)) t1.

Definition insert_first_child (t : tree) (i : nat) (d : data_t) : outcome tree (tree * nat) :=
  assert_that (negb (length t =? i)%nat) ;;
  n <- deref t i ;;
  let drift1 := wrap (1 + drift n) in
  t1 <- store_drift i 0 t ;;
  vec_emplace (i + 1) (Node drift1 d) t1.

(** [while(--inserted) drift += 1 - (next++)->drift;], with [steps] the
    number of times the body runs. *)
Fixpoint child_tree_loop (steps : nat) (t : tree) (drift1 : Z) (next : nat)
  : outcome tree (Z * nat) :=
  match steps with
  | O => Done (drift1, next)
  | S steps' =>
      n <- deref t next ;;
      child_tree_loop steps' t (wrap (drift1 + wrap (1 - drift n))) (S next)
  end.

Definition insert_child_tree (t : tree) (i : nat) (range : tree) : outcome tree (tree * nat) :=
  assert_that (negb (length t =? i)%nat) ;;
  let old_count := size t in
  '(t1, next) <- vec_insert (i + 1) range t ;;
  let inserted := wrap (size t1 - old_count) in
  if 0 <? inserted then
    let i1 := Nat.pred next in
    n <- deref t1 i1 ;;
    let drift1 := wrap (1 + drift n) in
    t2 <- store_drift i1 0 t1 ;;
    '(drift2, next2) <- child_tree_loop (Nat.pred (Z.to_nat inserted)) t2 drift1 next ;;
    t3 <- store_drift next2 drift2 t2 ;;
    Done (t3, next2)
  else Done (t1, next).

Definition insert_sibling (t : tree) (i : nat) (d : data_t) : outcome tree (tree * nat) :=
  assert_that (negb (i =? length t)%nat) ;;
  let drift1 := 1 in
  vec_emplace i (Node drift1 d) t.

Definition erase_leaf (t : tree) (i : nat) : outcome tree (tree * nat) :=
  assert_that (negb (i =? length t)%nat) ;;
  n <- deref t i ;;
  assert_that (is_leaf n) ;;
  let drift1 := wrap (drift n - 1) in
  match i with
  | O => Undefined
  | S i' =>
      p <- deref t i' ;;
      t1 <- store_drift i' (wrap (drift p + drift1)) t ;;
      vec_erase i t1
  end.

(** ** subtree and subtree::iterator *)

(** [iterator(it)] *)
Definition iterator_at (t : tree) (it : nat) : outcome tree iterator :=
  n <- deref t it ;;
  Done {| it_m := Some (it + 1)%nat; level_m := if drift n =? 0 then 1 else 0 |}.

(** [iterator::end()], the value-initialised iterator *)
Definition iterator_end : iterator := {| it_m := None; level_m := 0 |}.

Definition is_end (it : iterator) : bool := level_m it =? 0.

(** equality of vector iterators *)
Definition cursor_eqb (a b : option nat) : bool :=
  match a, b with
  | Some x, Some y => (x =? y)%nat
  | None, None => true
  | _, _ => false
  end.

(** [operator==] *)
Definition iterator_eqb (a b : iterator) : bool :=
  if is_end a || is_end b then level_m a =? level_m b
  else cursor_eqb (it_m a) (it_m b).

(** [operator!=] *)
Definition iterator_neb (a b : iterator) : bool := negb (iterator_eqb a b).

(** [operator*] *)
Definition iterator_deref (t : tree) (it : iterator) : outcome tree node_t :=
  match it_m it with
  | Some c => deref t c
  | None => Undefined
  end.

(** [operator++] *)
Definition iterator_incr (t : tree) (it : iterator) : outcome tree iterator :=
  n <- iterator_deref t it ;;
  let level1 := wrap (level_m it + 1) in
  let level2 := if level1 <? drift n then 0 else wrap (level1 - drift n) in
  match it_m it with
  | Some c => Done {| it_m := Some (S c); level_m := level2 |}
  | None => Undefined
  end.

(** [subtree(it).begin()] and [subtree(it).end()]; a subtree is its anchor
    position. *)
Definition subtree_begin (t : tree) (st : nat) : outcome tree iterator := iterator_at t st.
Definition subtree_end : iterator := iterator_end.

(** The nodes not yet passed by a cursor. *)
Definition ahead_of (t : tree) (it : iterator) : tree :=
  match it_m it with
  | Some c => drop c t
  | None => []
  end.

(** The nodes that [for (it = begin(st); it != end(st); ++it)] visits. The
    recursion is on the nodes ahead of the cursor: with none left, taking
    the node at [it] is an access past the last node. *)
Fixpoint subtree_visit (ahead : tree) (t : tree) (it : iterator) : outcome tree tree :=
  if iterator_neb it subtree_end then
    match ahead with
    | [] => Undefined
    | _ :: ahead' =>
        n <- iterator_deref t it ;;
        it' <- iterator_incr t it ;;
        rest <- subtree_visit ahead' t it' ;;
        Done (n :: rest)
    end
  else Done [].

Definition subtree_nodes (t : tree) (st : nat) : outcome tree tree :=
  it <- subtree_begin t st ;;
  subtree_visit (ahead_of t it) t it.

(** [std::distance(begin(st), end(st))] *)
Definition subtree_distance (t : tree) (st : nat) : outcome tree Z :=
  ns <- subtree_nodes t st ;;
  Done (size ns).

(** [while(st_it != end(st)) { level = st_it.level(); ++st_it; }], with the
    same recursion on the nodes ahead of the cursor *)
Fixpoint erase_subtree_loop (ahead : tree) (t : tree) (st_it : iterator) (level : Z)
  : outcome tree (iterator * Z) :=
  if iterator_neb st_it subtree_end then
    match ahead with
    | [] => Undefined
    | _ :: ahead' =>
        let level1 := level_m st_it in
        st_it' <- iterator_incr t st_it ;;
        erase_subtree_loop ahead' t st_it' level1
    end
  else Done (st_it, level).

Definition erase_subtree (t : tree) (st : nat) : outcome tree (tree * nat) :=
  st_it <- subtree_begin t st ;;
  let vec_begin := it_m st_it in
  let level := level_m st_it in
  '(st_it1, level1) <- erase_subtree_loop (ahead_of t st_it) t st_it level ;;
  let vec_end := it_m st_it1 in
  match vec_begin, vec_end with
  | Some vb, Some ve =>
      n <- deref t (Nat.pred ve) ;;
      let drift1 := wrap (drift n - level1) in
      t1 <- store_drift st drift1 t ;;
      vec_erase_range vb ve t1
  | _, _ => Undefined
  end.

(** ** The invariant check of the builder test *)

(** [BuilderTest::checkInvariant]: the drifts, summed in [size_t], give the
    node count, and the tree is empty or its last node is a leaf. *)
Definition checkInvariant (t : tree) : bool :=
  let sum := fold_left (fun s n => wrap (s + drift n)) t 0 in
  (sum =? size t)
  && ((0 =? size t) || match last t with Some b => is_leaf b | None => false end).

(** ** Levels

    The level of a node is the number of its ancestors. Reading the
    sequence from the left, a node of drift [d] at level [lvl] puts the next
    node at level [lvl + 1 - d]. *)

Definition drift_sum (t : tree) : Z := foldr (fun n s => drift n + s) 0 t.

(** The level of the node that would follow [t], when [t] starts at level
    [lvl]. *)
Definition open_level (lvl : Z) (t : tree) : Z := lvl + size t - drift_sum t.

(** No node of [t] closes more levels than are open: a node at level [lvl]
    has a drift of at most [lvl + 1]. *)
Fixpoint well_nested (lvl : Z) (t : tree) : Prop :=
  match t with
  | [] => True
  | n :: t' => 0 <= drift n <= lvl + 1 /\ well_nested (lvl + 1 - drift n) t'
  end.

#[global] Instance well_nested_dec lvl t : Decision (well_nested lvl t).
Proof. revert lvl. induction t as [|n t IH]; intros lvl; simpl; apply _. Defined.

(** A drift-encoded tree: nested from level 0, closed by its last node, and
    of a length that [size_type] holds. *)
Definition valid_tree (t : tree) : Prop :=
  well_nested 0 t /\ drift_sum t = size t /\ size t < drift_modulus.

#[global] Instance valid_tree_dec t : Decision (valid_tree t).
Proof. unfold valid_tree. apply _. Defined.

(** The drift values of a node sequence are [drift_t] values. *)
Definition drifts_in_range (t : tree) : Prop :=
  Forall (fun n => 0 <= drift n < drift_modulus) t.

(** A node range that encodes a tree up to its final drift: every node but
    the last is nested from level 0 (the last drift is recomputed by
    [insert_child_tree]). *)
Definition tree_range (r : tree) : Prop :=
  drifts_in_range r /\ well_nested 0 (removelast r).

(** The level of the node at position [i] of [t]. *)
Definition level_of (t : tree) (i : nat) : Z := open_level 0 (take i t).

(** Position [j] is a descendant of position [p]: it lies behind [p] and
    every node from [p + 1] up to [j] is at a deeper level than [p]. *)
Definition descendant (t : tree) (p j : nat) : Prop :=
  (p < j < length t)%nat /\
  forall k, (p < k <= j)%nat -> level_of t p < level_of t k.

(** ** Reachable trees *)

(** One returning call of a mutating operation; [range_ok] is what is
    required of the node range given to [insert_child_tree]. *)
Inductive call (range_ok : tree -> Prop) : tree -> tree -> Prop :=
| call_push_root t v t' :
    push_root t v = Done t' -> call range_ok t t'
| call_push_back_drifted t d back_drift t' :
    0 <= back_drift < drift_modulus ->
    push_back_drifted t d back_drift = Done t' -> call range_ok t t'
| call_push_back_child t d t' :
    push_back_child t d = Done t' -> call range_ok t t'
| call_push_back_sibling t d t' :
    push_back_sibling t d = Done t' -> call range_ok t t'
| call_push_back_level t d level t' :
    0 <= level < drift_modulus ->
    push_back_level t d level = Done t' -> call range_ok t t'
| call_pop_back t t' :
    pop_back t = Done t' -> call range_ok t t'
| call_insert_first_child t i d t' it :
    insert_first_child t i d = Done (t', it) -> call range_ok t t'
| call_insert_child_tree t i r t' it :
    range_ok r ->
    insert_child_tree t i r = Done (t', it) -> call range_ok t t'
| call_insert_sibling t i d t' it :
    insert_sibling t i d = Done (t', it) -> call range_ok t t'
| call_erase_leaf t i t' it :
    erase_leaf t i = Done (t', it) -> call range_ok t t'
| call_erase_subtree t st t' it :
    erase_subtree t st = Done (t', it) -> call range_ok t t'.

(** The trees that a sequence of returning calls builds from the empty
    tree. *)
Inductive reachable (range_ok : tree -> Prop) : tree -> Prop :=
| reachable_empty : reachable range_ok []
| reachable_call t t' :
    reachable range_ok t -> call range_ok t t' -> reachable range_ok t'.

(** ** Iterator states of a traversal *)

(** The iterator states that [subtree(p).begin()] and any number of
    returning [++] steps produce. *)
Inductive visiting (t : tree) (p : nat) : iterator -> Prop :=
| visiting_begin it :
    subtree_begin t p = Done it -> visiting t p it
| visiting_incr it it' :
    visiting t p it -> iterator_incr t it = Done it' -> visiting t p it'.

End DriftTree.

(** ** Scenario 1 of the builder test *)

Definition scenario1 (max_size : Z)
  : outcome (list (drift_node Z)) (list (drift_node Z)) :=
  t <- push_root max_size [] 1 ;;
  t <- push_back_child max_size t 2 ;;
  t <- push_back_child max_size t 3 ;;
  t <- push_back_sibling max_size t 4 ;;
  t <- push_back_level max_size t 5 1 ;;
  push_back_child max_size t 6.

Definition scenario1_tree : list (drift_node Z) :=
  [Node 0 1; Node 0 2; Node 1 3; Node 2 4; Node 0 5; Node 3 6].

(** [std::accumulate(t.begin(), t.end(), 0u, ...)] of the data values, an
    [unsigned] sum *)
Definition data_sum (t : list (drift_node Z)) : Z :=
  fold_left (fun s n => (s + data n) mod 2 ^ 32) t 0.

(** An example of [max_size()]: [PTRDIFF_MAX / 16], the bound of a vector
    of 16-byte nodes on a 64-bit target. *)
Definition max_size_example : Z := 576460752303423487.

Section Properties.

Context {data_t : Type}.

Abbreviation node_t := (drift_node data_t).
Abbreviation tree := (list (drift_node data_t)).

Variable max_size : Z.

(** [max_size()] is a [size_type] value. *)
Hypothesis max_size_nonneg : 0 <= max_size.
Hypothesis max_size_representable : max_size < drift_modulus.

(** ** Arithmetic in [size_t] *)

Lemma wrap_small z : 0 <= z < drift_modulus -> wrap z = z.
Proof. intros H. unfold wrap. apply Z.mod_small. exact H. Qed.

Lemma wrap_add_r a b : wrap (a + wrap b) = wrap (a + b).
Proof. unfold wrap. apply Zplus_mod_idemp_r. Qed.

Lemma wrap_add_l a b : wrap (wrap a + b) = wrap (a + b).
Proof. unfold wrap. apply Zplus_mod_idemp_l. Qed.

(** ** The vector operations on a split sequence *)

Lemma size_app (a b : tree) : size (a ++ b) = size a + size b.
Proof. unfold size. rewrite length_app. lia. Qed.

Lemma size_cons (n : node_t) (t : tree) : size (n :: t) = 1 + size t.
Proof. unfold size. simpl length. lia. Qed.

Lemma size_nonneg (t : tree) : 0 <= size t.
Proof. unfold size. lia. Qed.

Lemma set_drift_same (n : node_t) : set_drift (drift n) n = n.
Proof. destruct n. reflexivity. Qed.

Lemma back_snoc (init : tree) (l : node_t) : back (init ++ [l]) = Done l.
Proof. unfold back. rewrite last_snoc. reflexivity. Qed.

Lemma deref_middle (pre post : tree) (x : node_t) :
  deref (pre ++ x :: post) (length pre) = Done x.
Proof. unfold deref. rewrite list_lookup_middle; reflexivity. Qed.

Lemma store_drift_middle (pre post : tree) (x : node_t) d :
  store_drift (length pre) d (pre ++ x :: post) = Done (pre ++ set_drift d x :: post).
Proof.
  unfold store_drift. rewrite list_lookup_middle by reflexivity.
  rewrite alter_app_r_alt by lia. rewrite Nat.sub_diag. reflexivity.
Qed.

Lemma store_back_drift_snoc (init : tree) (l : node_t) d :
  store_back_drift d (init ++ [l]) = Done (init ++ [set_drift d l]).
Proof.
  unfold store_back_drift.
  destruct (init ++ [l]) eqn:E; [destruct init; discriminate|].
  rewrite <- E. replace (Nat.pred (length (init ++ [l]))) with (length init).
  - apply store_drift_middle.
  - rewrite length_app. simpl. lia.
Qed.

Lemma tree_snoc_cases (t : tree) : t = [] \/ exists init l, t = init ++ [l].
Proof.
  destruct t as [|n t] using rev_ind; [left; reflexivity|right; eauto].
Qed.

(** ** The operations on a split sequence *)

Lemma push_root_nil v :
  push_root max_size ([] : tree) v
  = if max_size <=? 0 then LengthError [] else Done [Node 1 v].
Proof.
  unfold push_root, vec_emplace. simpl. change (size []) with 0.
  destruct (max_size <=? 0); reflexivity.
Qed.

Lemma push_root_snoc (init : tree) l v :
  push_root max_size (init ++ [l]) v
  = if max_size <=? size (init ++ [l]) then LengthError (init ++ [l])
    else Done (Node 0 v :: init ++ [set_drift (wrap (drift l + 1)) l]).
Proof.
  unfold push_root, vec_emplace. cbn [Nat.ltb Nat.leb].
  destruct (max_size <=? size (init ++ [l])); [reflexivity|].
  cbn [bind]. rewrite take_0, drop_0.
  change ([] ++ Node 0 v :: init ++ [l]) with ((Node 0 v :: init) ++ [l]).
  rewrite back_snoc. cbn [bind]. rewrite store_back_drift_snoc. reflexivity.
Qed.

Lemma push_back_drifted_nil d back_drift :
  push_back_drifted max_size ([] : tree) d back_drift = AssertionFailed.
Proof. reflexivity. Qed.

Lemma size_snoc_pos (init : tree) (l : node_t) : (0 <? size (init ++ [l])) = true.
Proof. rewrite size_app, size_cons. pose proof (size_nonneg init). change (size []) with 0. lia. Qed.

Lemma push_back_drifted_snoc (init : tree) l d back_drift :
  push_back_drifted max_size (init ++ [l]) d back_drift
  = if back_drift <? wrap (1 + drift l) then
      if max_size <=? size (init ++ [l]) then LengthError (init ++ [set_drift back_drift l])
      else Done (init ++ [set_drift back_drift l;
                          Node (wrap (wrap (1 + drift l) - back_drift)) d])
    else AssertionFailed.
Proof.
  unfold push_back_drifted. rewrite size_snoc_pos. cbn [bind assert_that].
  rewrite back_snoc. cbn [bind assert_that].
  destruct (back_drift <? wrap (1 + drift l)); [|reflexivity]. cbn [bind assert_that].
  rewrite store_back_drift_snoc. cbn [bind assert_that]. unfold vec_emplace_back.
  rewrite !size_app, !size_cons.
  destruct (max_size <=? _); [reflexivity|].
  rewrite <- app_assoc. reflexivity.
Qed.

Lemma push_back_level_nil d level :
  push_back_level max_size ([] : tree) d level = AssertionFailed.
Proof. reflexivity. Qed.

Lemma push_back_level_snoc (init : tree) l d level :
  push_back_level max_size (init ++ [l]) d level
  = if level <? drift l then
      if max_size <=? size (init ++ [l])
      then LengthError (init ++ [set_drift (wrap (drift l - level)) l])
      else Done (init ++ [set_drift (wrap (drift l - level)) l;
                          Node (wrap (1 + level)) d])
    else AssertionFailed.
Proof.
  unfold push_back_level. rewrite size_snoc_pos. cbn [bind assert_that].
  rewrite back_snoc. cbn [bind assert_that].
  destruct (level <? drift l); [|reflexivity]. cbn [bind assert_that].
  rewrite store_back_drift_snoc. cbn [bind assert_that]. unfold vec_emplace_back.
  rewrite !size_app, !size_cons.
  destruct (max_size <=? _); [reflexivity|].
  rewrite <- app_assoc. reflexivity.
Qed.

Lemma pop_back_short (t : tree) : (length t <= 1)%nat -> pop_back t = AssertionFailed.
Proof.
  intros H. unfold pop_back, size.
  destruct (1 <? Z.of_nat (length t)) eqn:E; [lia|reflexivity].
Qed.

Lemma pop_back_snoc2 (init : tree) p l :
  pop_back (init ++ [p; l])
  = Done (init ++ [set_drift (wrap (drift p + wrap (drift l - 1))) p]).
Proof.
  unfold pop_back.
  assert (E : (1 <? size (init ++ [p; l])) = true).
  { rewrite size_app, !size_cons. pose proof (size_nonneg init).
    change (size []) with 0. lia. }
  rewrite E. cbn [bind assert_that].
  replace (init ++ [p; l]) with ((init ++ [p]) ++ [l]) by (rewrite <- app_assoc; reflexivity).
  rewrite back_snoc. cbn [bind assert_that]. unfold vec_pop_back.
  destruct ((init ++ [p]) ++ [l]) eqn:E2; [destruct init; discriminate|].
  rewrite <- E2. rewrite removelast_last. cbn [bind assert_that].
  rewrite back_snoc. cbn [bind assert_that]. apply store_back_drift_snoc.
Qed.

(** ** Levels of a split sequence *)

Lemma drift_sum_app (a b : tree) : drift_sum (a ++ b) = drift_sum a + drift_sum b.
Proof. induction a as [|n a IH]; simpl; [reflexivity|]. fold (drift_sum (a ++ b)) (drift_sum a). lia. Qed.

Lemma drift_sum_cons (n : node_t) (t : tree) : drift_sum (n :: t) = drift n + drift_sum t.
Proof. reflexivity. Qed.

Lemma open_level_nil lvl : open_level lvl ([] : tree) = lvl.
Proof. unfold open_level. change (size []) with 0. simpl. lia. Qed.

Lemma open_level_cons lvl (n : node_t) (t : tree) :
  open_level lvl (n :: t) = open_level (lvl + 1 - drift n) t.
Proof. unfold open_level. rewrite size_cons, drift_sum_cons. lia. Qed.

Lemma open_level_app lvl (a b : tree) :
  open_level lvl (a ++ b) = open_level (open_level lvl a) b.
Proof. unfold open_level. rewrite size_app, drift_sum_app. lia. Qed.

Lemma open_level_shift lvl (t : tree) : open_level lvl t = lvl + open_level 0 t.
Proof. unfold open_level. lia. Qed.

Lemma well_nested_app lvl (a b : tree) :
  well_nested lvl (a ++ b) <-> well_nested lvl a /\ well_nested (open_level lvl a) b.
Proof.
  revert lvl. induction a as [|n a IH]; intros lvl; simpl.
  - rewrite open_level_nil. tauto.
  - rewrite open_level_cons, IH. tauto.
Qed.

Lemma well_nested_mono lvl lvl' (t : tree) :
  lvl <= lvl' -> well_nested lvl t -> well_nested lvl' t.
Proof.
  revert lvl lvl'. induction t as [|n t IH]; intros lvl lvl' Hle; simpl; [tauto|].
  intros [Hd Ht]. split; [lia|]. apply (IH (lvl + 1 - drift n)); [lia|exact Ht].
Qed.

Lemma well_nested_open_level lvl (t : tree) :
  0 <= lvl -> well_nested lvl t -> 0 <= open_level lvl t <= lvl + size t.
Proof.
  revert lvl. induction t as [|n t IH]; intros lvl Hlvl; simpl.
  - intros _. rewrite open_level_nil. change (size []) with 0. lia.
  - intros [Hd Ht]. rewrite open_level_cons, size_cons.
    specialize (IH (lvl + 1 - drift n) ltac:(lia) Ht). lia.
Qed.

Lemma valid_tree_nil : valid_tree ([] : tree).
Proof. repeat split. Qed.

Lemma valid_tree_snoc (init : tree) l :
  valid_tree (init ++ [l])
  <-> well_nested 0 init /\ drift l = open_level 0 init + 1
      /\ size init + 1 < drift_modulus.
Proof.
  unfold valid_tree. rewrite well_nested_app, drift_sum_app, size_app, size_cons.
  change (size []) with 0. cbn [well_nested]. rewrite drift_sum_cons.
  change (drift_sum []) with 0. unfold open_level. split.
  - intros ((Hn & Hd & _) & Hs & Hz). repeat split; [exact Hn|lia|lia].
  - intros (Hn & Hd & Hz).
    pose proof (well_nested_open_level 0 init ltac:(lia) Hn) as Hb.
    unfold open_level in Hb. repeat split; try tauto; lia.
Qed.

(** The two conjuncts of the invariant the builder test checks. *)
Lemma valid_tree_sum (t : tree) : valid_tree t -> drift_sum t = size t.
Proof. intros (_ & H & _). exact H. Qed.

Lemma wrapped_sum (t : tree) : forall a,
  fold_left (fun s n => wrap (s + drift n)) t (wrap a) = wrap (a + drift_sum t).
Proof.
  induction t as [|n t IH]; intros a; cbn [fold_left].
  - change (drift_sum []) with 0. rewrite Z.add_0_r. reflexivity.
  - rewrite wrap_add_l, IH, drift_sum_cons, Z.add_assoc. reflexivity.
Qed.

Lemma valid_tree_last_leaf (t : tree) l :
  valid_tree t -> last t = Some l -> 0 < drift l.
Proof.
  intros Hv Hl. destruct (tree_snoc_cases t) as [->|(init & x & ->)]; [discriminate|].
  rewrite last_snoc in Hl. injection Hl as ->.
  apply valid_tree_snoc in Hv as (Hn & Hd & _).
  pose proof (well_nested_open_level 0 init ltac:(lia) Hn). lia.
Qed.

Lemma valid_tree_checkInvariant (t : tree) : valid_tree t -> checkInvariant t = true.
Proof.
  intros Hv. unfold checkInvariant. cbn zeta.
  change 0 with (wrap 0) at 1. rewrite wrapped_sum, Z.add_0_l.
  pose proof (size_nonneg t) as Hs. pose proof Hv as (_ & Hsum & Hz).
  rewrite Hsum, wrap_small by lia. rewrite Z.eqb_refl. cbn [andb].
  destruct (last t) as [l|] eqn:El.
  - pose proof (valid_tree_last_leaf t l Hv El) as Hd. unfold is_leaf.
    destruct (Z.eqb_spec (drift l) 0); [lia|]. apply orb_true_r.
  - apply last_None in El. subst t. reflexivity.
Qed.

(** ** The appending operations keep a tree valid *)

Lemma drift_modulus_eq : drift_modulus = 18446744073709551616.
Proof. reflexivity. Qed.

Ltac split_hyps :=
  repeat match goal with H : _ /\ _ |- _ => destruct H end.

Ltac nested_bounds :=
  repeat match goal with
  | H : well_nested ?lvl ?t |- _ =>
      lazymatch goal with
      | _ : 0 <= open_level lvl t <= lvl + size t |- _ => fail
      | _ => pose proof (well_nested_open_level lvl t ltac:(lia) H)
      end
  end.

Ltac levels :=
  unfold valid_tree in *;
  repeat first [ rewrite well_nested_app in *
               | progress cbn [well_nested drift data set_drift] in * ];
  split_hyps; nested_bounds;
  unfold open_level in *;
  repeat first [ rewrite drift_sum_app in * | rewrite size_app in *
               | rewrite size_cons in * | rewrite drift_sum_cons in * ];
  cbn [drift data set_drift] in *;
  change (size (@nil node_t)) with 0 in *;
  change (drift_sum (@nil node_t)) with 0 in *.

Ltac splits := repeat match goal with |- _ /\ _ => split end.

Ltac nested := eapply well_nested_mono; [|eassumption]; unfold open_level in *; lia.

Lemma push_root_valid (t : tree) v t' :
  valid_tree t -> push_root max_size t v = Done t' ->
  valid_tree t' /\ size t' <= max_size.
Proof.
  intros Hv H. destruct (tree_snoc_cases t) as [->|(init & l & ->)].
  - rewrite push_root_nil in H. destruct (max_size <=? 0) eqn:E; [discriminate|].
    injection H as <-. pose proof drift_modulus_eq. apply Z.leb_gt in E.
    levels. cbn [drift]. splits; solve [lia|exact I].
  - rewrite push_root_snoc in H.
    destruct (max_size <=? size (init ++ [l])) eqn:E; [discriminate|].
    injection H as <-. apply valid_tree_snoc in Hv as (Hn & Hd & Hz).
    nested_bounds. apply Z.leb_gt in E.
    change (Node 0 v :: init ++ [set_drift (wrap (drift l + 1)) l])
      with ((Node 0 v :: init) ++ [set_drift (wrap (drift l + 1)) l]).
    rewrite valid_tree_snoc. cbn [set_drift drift].
    rewrite wrap_small by (levels; lia).
    levels. splits; try lia. nested.
Qed.

Lemma push_back_drifted_valid (t : tree) d back_drift t' :
  valid_tree t -> 0 <= back_drift < drift_modulus ->
  push_back_drifted max_size t d back_drift = Done t' ->
  valid_tree t' /\ size t' <= max_size.
Proof.
  intros Hv Hb H. destruct (tree_snoc_cases t) as [->|(init & l & ->)].
  - discriminate.
  - rewrite push_back_drifted_snoc in H.
    destruct (back_drift <? wrap (1 + drift l)) eqn:E1; [|discriminate].
    destruct (max_size <=? size (init ++ [l])) eqn:E2; [discriminate|].
    injection H as <-. apply valid_tree_snoc in Hv as (Hn & Hd & Hz).
    nested_bounds. apply Z.leb_gt in E2. apply Z.ltb_lt in E1.
    rewrite wrap_small in E1 by (levels; lia).
    rewrite (wrap_small (1 + drift l)) by (levels; lia).
    rewrite wrap_small by (levels; lia).
    replace (init ++ [set_drift back_drift l; Node (1 + drift l - back_drift) d])
      with ((init ++ [set_drift back_drift l]) ++ [Node (1 + drift l - back_drift) d])
      by (rewrite <- app_assoc; reflexivity).
    rewrite valid_tree_snoc. cbn [set_drift drift].
    levels. splits; try lia. exact Hn.
Qed.

Lemma push_back_level_valid (t : tree) d level t' :
  valid_tree t -> 0 <= level < drift_modulus ->
  push_back_level max_size t d level = Done t' ->
  valid_tree t' /\ size t' <= max_size.
Proof.
  intros Hv Hb H. destruct (tree_snoc_cases t) as [->|(init & l & ->)].
  - discriminate.
  - rewrite push_back_level_snoc in H.
    destruct (level <? drift l) eqn:E1; [|discriminate].
    destruct (max_size <=? size (init ++ [l])) eqn:E2; [discriminate|].
    injection H as <-. apply valid_tree_snoc in Hv as (Hn & Hd & Hz).
    nested_bounds. apply Z.leb_gt in E2. apply Z.ltb_lt in E1.
    rewrite (wrap_small (drift l - level)) by (levels; lia).
    rewrite wrap_small by (levels; lia).
    replace (init ++ [set_drift (drift l - level) l; Node (1 + level) d])
      with ((init ++ [set_drift (drift l - level) l]) ++ [Node (1 + level) d])
      by (rewrite <- app_assoc; reflexivity).
    rewrite valid_tree_snoc. cbn [set_drift drift].
    levels. splits; try lia. exact Hn.
Qed.

Lemma tree_snoc2_cases (t : tree) :
  (length t <= 1)%nat \/ exists init p l, t = init ++ [p; l].
Proof.
  destruct (tree_snoc_cases t) as [->|(init & l & ->)]; [left; simpl; lia|].
  destruct (tree_snoc_cases init) as [->|(init' & p & ->)]; [left; simpl; lia|].
  right. exists init', p, l. rewrite <- app_assoc. reflexivity.
Qed.

Lemma pop_back_valid (t : tree) t' :
  valid_tree t -> pop_back t = Done t' -> valid_tree t' /\ size t' <= size t.
Proof.
  intros Hv H. destruct (tree_snoc2_cases t) as [Hs|(init & p & l & ->)].
  - rewrite pop_back_short in H by exact Hs. discriminate.
  - rewrite pop_back_snoc2 in H. injection H as <-.
    replace (init ++ [p; l]) with ((init ++ [p]) ++ [l]) in *
      by (rewrite <- app_assoc; reflexivity).
    apply valid_tree_snoc in Hv as (Hn & Hd & Hz).
    apply well_nested_app in Hn as (Hn & Hp). cbn [well_nested] in Hp.
    nested_bounds.
    rewrite (wrap_small (drift l - 1)) by (levels; lia).
    rewrite wrap_small by (levels; lia).
    rewrite valid_tree_snoc. cbn [set_drift drift].
    levels. splits; try lia. exact Hn.
Qed.

(** ** The inserting and erasing operations on a split sequence *)

Lemma position_cases (t : tree) i :
  (exists pre x post, t = pre ++ x :: post /\ i = length pre)
  \/ i = length t \/ (length t < i)%nat.
Proof.
  destruct (t !! i) eqn:E.
  - left. apply list_elem_of_split_length in E as (pre & post & -> & ->). eauto.
  - apply lookup_ge_None in E. right. lia.
Qed.

Lemma cons_middle (pre post : tree) (x : node_t) :
  pre ++ x :: post = (pre ++ [x]) ++ post.
Proof. rewrite <- app_assoc. reflexivity. Qed.

Lemma length_neb_middle (pre post : tree) (x : node_t) :
  negb (length (pre ++ x :: post) =? length pre)%nat = true.
Proof.
  rewrite length_app. simpl length.
  destruct (Nat.eqb_spec (length pre + S (length post)) (length pre)); [lia|reflexivity].
Qed.

Lemma length_neb_middle' (pre post : tree) (x : node_t) :
  negb (length pre =? length (pre ++ x :: post))%nat = true.
Proof. rewrite Nat.eqb_sym. apply length_neb_middle. Qed.

Lemma insert_first_child_end (t : tree) d :
  insert_first_child max_size t (length t) d = AssertionFailed.
Proof. unfold insert_first_child. rewrite Nat.eqb_refl. reflexivity. Qed.

Lemma insert_first_child_outside (t : tree) i d :
  (length t < i)%nat -> insert_first_child max_size t i d = Undefined.
Proof.
  intros H. unfold insert_first_child, deref.
  destruct (Nat.eqb_spec (length t) i); [lia|]. cbn [negb assert_that bind].
  rewrite lookup_ge_None_2 by lia. reflexivity.
Qed.

Lemma insert_first_child_middle (pre post : tree) x d :
  insert_first_child max_size (pre ++ x :: post) (length pre) d
  = if max_size <=? size (pre ++ x :: post) then LengthError (pre ++ set_drift 0 x :: post)
    else Done (pre ++ set_drift 0 x :: Node (wrap (1 + drift x)) d :: post,
               S (length pre)).
Proof.
  unfold insert_first_child. rewrite length_neb_middle. cbn [assert_that bind].
  rewrite deref_middle. cbn [bind]. rewrite store_drift_middle. cbn [bind].
  unfold vec_emplace. rewrite !size_app, !size_cons.
  rewrite (cons_middle pre post (set_drift 0 x)).
  replace (length pre + 1)%nat with (length (pre ++ [set_drift 0 x]))
    by (rewrite length_app; reflexivity).
  rewrite take_app_length, drop_app_length.
  destruct (Nat.ltb_spec (length ((pre ++ [set_drift 0 x]) ++ post))
              (length (pre ++ [set_drift 0 x]))) as [Hlt|_].
  { rewrite length_app in Hlt. lia. }
  destruct (max_size <=? _); [reflexivity|].
  rewrite <- app_assoc, length_app. simpl. f_equal. f_equal. lia.
Qed.

Lemma insert_sibling_end (t : tree) d :
  insert_sibling max_size t (length t) d = AssertionFailed.
Proof. unfold insert_sibling. rewrite Nat.eqb_refl. reflexivity. Qed.

Lemma insert_sibling_outside (t : tree) i d :
  (length t < i)%nat -> insert_sibling max_size t i d = Undefined.
Proof.
  intros H. unfold insert_sibling, vec_emplace.
  destruct (Nat.eqb_spec i (length t)); [lia|]. cbn [negb assert_that bind].
  destruct (Nat.ltb_spec (length t) i); [reflexivity|lia].
Qed.

Lemma insert_sibling_middle (pre post : tree) x d :
  insert_sibling max_size (pre ++ x :: post) (length pre) d
  = if max_size <=? size (pre ++ x :: post) then LengthError (pre ++ x :: post)
    else Done (pre ++ Node 1 d :: x :: post, length pre).
Proof.
  unfold insert_sibling. rewrite length_neb_middle'. cbn [assert_that bind].
  unfold vec_emplace. rewrite take_app_length, drop_app_length.
  destruct (Nat.ltb_spec (length (pre ++ x :: post)) (length pre)) as [Hlt|_].
  { rewrite length_app in Hlt. lia. }
  reflexivity.
Qed.

Lemma erase_leaf_end (t : tree) : erase_leaf t (length t) = AssertionFailed.
Proof. unfold erase_leaf. rewrite Nat.eqb_refl. reflexivity. Qed.

Lemma erase_leaf_outside (t : tree) i : (length t < i)%nat -> erase_leaf t i = Undefined.
Proof.
  intros H. unfold erase_leaf, deref.
  destruct (Nat.eqb_spec i (length t)); [lia|]. cbn [negb assert_that bind].
  rewrite lookup_ge_None_2 by lia. reflexivity.
Qed.

Lemma erase_leaf_front (x : node_t) (post : tree) :
  erase_leaf (x :: post) 0 = if is_leaf x then Undefined else AssertionFailed.
Proof. unfold erase_leaf. simpl. destruct (is_leaf x); reflexivity. Qed.

Lemma deref_middle_S (pre post : tree) (p x : node_t) :
  deref (pre ++ p :: x :: post) (S (length pre)) = Done x.
Proof.
  rewrite (cons_middle pre (x :: post) p).
  replace (S (length pre)) with (length (pre ++ [p]))
    by (rewrite length_app; simpl; lia).
  apply deref_middle.
Qed.

Lemma erase_middle_S (pre post : tree) (p x : node_t) :
  vec_erase (S (length pre)) (pre ++ p :: x :: post)
  = Done (pre ++ p :: post, S (length pre)).
Proof.
  unfold vec_erase.
  destruct (Nat.ltb_spec (S (length pre)) (length (pre ++ p :: x :: post))) as [_|Hge].
  - rewrite (cons_middle pre (x :: post) p).
    replace (S (length pre)) with (length (pre ++ [p])) at 1
      by (rewrite length_app; simpl; lia).
    rewrite take_app_length.
    rewrite (cons_middle (pre ++ [p]) post x).
    replace (S (S (length pre))) with (length ((pre ++ [p]) ++ [x]))
      by (rewrite !length_app; simpl; lia).
    rewrite drop_app_length, <- cons_middle. reflexivity.
  - rewrite length_app in Hge. simpl in Hge. lia.
Qed.

Lemma erase_leaf_middle (pre post : tree) p x :
  erase_leaf (pre ++ p :: x :: post) (S (length pre))
  = if is_leaf x
    then Done (pre ++ set_drift (wrap (drift p + wrap (drift x - 1))) p :: post,
               S (length pre))
    else AssertionFailed.
Proof.
  unfold erase_leaf.
  assert (E : negb (S (length pre) =? length (pre ++ p :: x :: post))%nat = true).
  { destruct (Nat.eqb_spec (S (length pre)) (length (pre ++ p :: x :: post))) as [Heq|_];
      [|reflexivity].
    rewrite length_app in Heq. simpl in Heq. lia. }
  rewrite E. cbn [assert_that bind]. rewrite deref_middle_S. cbn [bind].
  destruct (is_leaf x); [|reflexivity]. cbn [assert_that bind].
  rewrite deref_middle. cbn [bind]. rewrite store_drift_middle. cbn [bind].
  apply erase_middle_S.
Qed.

(** ** The inserting and erasing operations keep a tree valid *)

Lemma insert_first_child_valid (t : tree) i d t' it :
  valid_tree t -> insert_first_child max_size t i d = Done (t', it) ->
  valid_tree t' /\ size t' <= max_size.
Proof.
  intros Hv H.
  destruct (position_cases t i) as [(pre & x & post & -> & ->)|[->|Hout]].
  - rewrite insert_first_child_middle in H.
    destruct (max_size <=? size (pre ++ x :: post)) eqn:E; [discriminate|].
    injection H as <- <-. apply Z.leb_gt in E. levels.
    rewrite wrap_small by lia. splits; try lia; try assumption. nested.
  - rewrite insert_first_child_end in H. discriminate.
  - rewrite insert_first_child_outside in H by exact Hout. discriminate.
Qed.

Lemma insert_sibling_valid (t : tree) i d t' it :
  valid_tree t -> insert_sibling max_size t i d = Done (t', it) ->
  valid_tree t' /\ size t' <= max_size.
Proof.
  intros Hv H.
  destruct (position_cases t i) as [(pre & x & post & -> & ->)|[->|Hout]].
  - rewrite insert_sibling_middle in H.
    destruct (max_size <=? size (pre ++ x :: post)) eqn:E; [discriminate|].
    injection H as <- <-. apply Z.leb_gt in E. levels.
    splits; try lia; try assumption. nested.
  - rewrite insert_sibling_end in H. discriminate.
  - rewrite insert_sibling_outside in H by exact Hout. discriminate.
Qed.

Lemma erase_leaf_valid (t : tree) i t' it :
  valid_tree t -> erase_leaf t i = Done (t', it) ->
  valid_tree t' /\ size t' <= size t.
Proof.
  intros Hv H.
  destruct (position_cases t i) as [(pre & x & post & -> & ->)|[->|Hout]].
  - destruct (tree_snoc_cases pre) as [->|(pre' & p & ->)].
    + simpl in H. rewrite erase_leaf_front in H. destruct (is_leaf x); discriminate.
    + rewrite <- app_assoc in H, Hv. simpl in H, Hv.
      replace (length (pre' ++ [p])) with (S (length pre')) in H
        by (rewrite length_app; simpl; lia).
      rewrite erase_leaf_middle in H. unfold is_leaf in H.
      destruct (Z.eqb_spec (drift x) 0) as [|Hx]; [discriminate|].
      injection H as <- <-. levels.
      rewrite (wrap_small (drift x - 1)) by lia.
      rewrite wrap_small by lia.
      splits; try lia; try assumption. nested.
  - rewrite erase_leaf_end in H. discriminate.
  - rewrite erase_leaf_outside in H by exact Hout. discriminate.
Qed.

(** ** insert_child_tree *)

Lemma child_tree_loop_spec (seg : tree) : forall (A B : tree) z,
  child_tree_loop (length seg) (A ++ seg ++ B) (wrap z) (length A)
  = Done (wrap (z + size seg - drift_sum seg), (length A + length seg)%nat).
Proof.
  induction seg as [|n seg IH]; intros A B z.
  - simpl. change (size []) with 0. rewrite Z.add_0_r, Z.sub_0_r, Nat.add_0_r. reflexivity.
  - cbn [length child_tree_loop]. rewrite <- app_comm_cons, deref_middle. cbn [bind].
    rewrite wrap_add_r, wrap_add_l.
    rewrite (cons_middle A (seg ++ B) n).
    replace (S (length A)) with (length (A ++ [n])) by (rewrite length_app; simpl; lia).
    rewrite Z.add_sub_assoc, IH. rewrite size_cons, drift_sum_cons, length_app. simpl length.
    f_equal. f_equal; [f_equal|]; lia.
Qed.

Lemma vec_insert_middle (pre post r : tree) (x : node_t) :
  r <> [] ->
  vec_insert max_size (length pre + 1) r (pre ++ x :: post)
  = if max_size - size (pre ++ x :: post) <? size r then LengthError (pre ++ x :: post)
    else Done (pre ++ x :: r ++ post, (length pre + 1)%nat).
Proof.
  intros Hr. unfold vec_insert.
  destruct (Nat.ltb_spec (length (pre ++ x :: post)) (length pre + 1)) as [Hlt|_].
  { rewrite length_app in Hlt. simpl in Hlt. lia. }
  destruct r as [|n r]; [congruence|].
  destruct (_ <? _); [reflexivity|].
  rewrite (cons_middle pre post x).
  replace (length pre + 1)%nat with (length (pre ++ [x])) by (rewrite length_app; reflexivity).
  rewrite take_app_length, drop_app_length, <- app_assoc. reflexivity.
Qed.

Lemma insert_child_tree_end (t r : tree) :
  insert_child_tree max_size t (length t) r = AssertionFailed.
Proof. unfold insert_child_tree. rewrite Nat.eqb_refl. reflexivity. Qed.

Lemma insert_child_tree_outside (t r : tree) i :
  (length t < i)%nat -> insert_child_tree max_size t i r = Undefined.
Proof.
  intros H. unfold insert_child_tree, vec_insert.
  destruct (Nat.eqb_spec (length t) i); [lia|]. cbn [negb assert_that bind].
  destruct (Nat.ltb_spec (length t) (i + 1)); [reflexivity|lia].
Qed.

Lemma insert_child_tree_nil (t : tree) i :
  (i < length t)%nat ->
  insert_child_tree max_size t i [] = Done (t, (i + 1)%nat).
Proof.
  intros H. unfold insert_child_tree, vec_insert.
  destruct (Nat.eqb_spec (length t) i); [lia|]. cbn [negb assert_that bind].
  destruct (Nat.ltb_spec (length t) (i + 1)); [lia|]. cbn [bind].
  rewrite Z.sub_diag. reflexivity.
Qed.

Lemma insert_child_tree_middle (pre post rinit : tree) x rl :
  insert_child_tree max_size (pre ++ x :: post) (length pre) (rinit ++ [rl])
  = if max_size - size (pre ++ x :: post) <? size (rinit ++ [rl])
    then LengthError (pre ++ x :: post)
    else Done (pre ++ set_drift 0 x :: rinit
                 ++ set_drift (wrap (open_level (1 + drift x) rinit)) rl :: post,
               (length pre + 1 + length rinit)%nat).
Proof.
  unfold insert_child_tree. rewrite length_neb_middle. cbn [assert_that bind].
  rewrite vec_insert_middle by (destruct rinit; discriminate).
  destruct (_ <? _) eqn:E; [reflexivity|]. cbn [bind].
  apply Z.ltb_ge in E.
  assert (Hins : wrap (size (pre ++ x :: rinit ++ [rl] ++ post) - size (pre ++ x :: post))
                 = size rinit + 1).
  { rewrite !size_app, !size_cons, !size_app, size_cons in *.
    change (size (@nil node_t)) with 0 in *.
    pose proof (size_nonneg pre). pose proof (size_nonneg post).
    pose proof (size_nonneg rinit).
    replace (size pre + (1 + (size rinit + (1 + 0 + size post))) - (size pre + (1 + size post)))
      with (size rinit + 1) by lia.
    apply wrap_small. lia. }
  rewrite <- app_assoc. rewrite Hins.
  pose proof (size_nonneg rinit) as Hri.
  destruct (Z.ltb_spec 0 (size rinit + 1)) as [_|]; [|lia].
  replace (Nat.pred (length pre + 1)) with (length pre) by lia.
  rewrite deref_middle. cbn [bind]. rewrite store_drift_middle. cbn [bind].
  replace (Nat.pred (Z.to_nat (size rinit + 1))) with (length rinit) by (unfold size; lia).
  rewrite (cons_middle pre (rinit ++ [rl] ++ post) (set_drift 0 x)).
  replace (length pre + 1)%nat with (length (pre ++ [set_drift 0 x]))
    by (rewrite length_app; reflexivity).
  rewrite child_tree_loop_spec. cbn [bind].
  rewrite (app_assoc (pre ++ [set_drift 0 x]) rinit).
  replace (length (pre ++ [set_drift 0 x]) + length rinit)%nat
    with (length ((pre ++ [set_drift 0 x]) ++ rinit)) by (rewrite !length_app; reflexivity).
  cbn [app]. rewrite store_drift_middle. cbn [bind].
  rewrite <- !app_assoc. reflexivity.
Qed.

Lemma insert_child_tree_valid (t : tree) i r t' it :
  valid_tree t -> size t <= max_size -> tree_range r ->
  insert_child_tree max_size t i r = Done (t', it) ->
  valid_tree t' /\ size t' <= max_size.
Proof.
  intros Hv Hsz [Hr Hn] H.
  destruct (position_cases t i) as [(pre & x & post & -> & ->)|[->|Hout]].
  - destruct (tree_snoc_cases r) as [->|(rinit & rl & ->)].
    + rewrite insert_child_tree_nil in H
        by (rewrite length_app; simpl; lia).
      injection H as <- <-. split; [exact Hv|exact Hsz].
    + rewrite removelast_last in Hn.
      rewrite insert_child_tree_middle in H.
      destruct (_ <? _) eqn:E; [discriminate|]. apply Z.ltb_ge in E.
      injection H as <- <-. rewrite open_level_shift.
      levels. rewrite wrap_small by lia.
      splits; try lia; try assumption; nested.
  - rewrite insert_child_tree_end in H. discriminate.
  - rewrite insert_child_tree_outside in H by exact Hout. discriminate.
Qed.

(** ** Walking a subtree *)

Lemma iterator_neb_end it : iterator_neb it subtree_end = negb (is_end it).
Proof.
  unfold iterator_neb, iterator_eqb, subtree_end, iterator_end, is_end.
  cbn [level_m]. rewrite orb_true_r. reflexivity.
Qed.

Lemma iterator_at_middle (pre post : tree) a :
  iterator_at (pre ++ a :: post) (length pre)
  = Done {| it_m := Some (length pre + 1)%nat;
            level_m := if drift a =? 0 then 1 else 0 |}.
Proof. unfold iterator_at. rewrite deref_middle. reflexivity. Qed.

Lemma iterator_incr_middle (A B : tree) n level :
  iterator_incr (A ++ n :: B) {| it_m := Some (length A); level_m := level |}
  = Done {| it_m := Some (S (length A));
            level_m := if wrap (level + 1) <? drift n then 0
                       else wrap (wrap (level + 1) - drift n) |}.
Proof.
  unfold iterator_incr, iterator_deref. cbn [it_m level_m].
  rewrite deref_middle. reflexivity.
Qed.

Lemma erase_subtree_loop_end (ahead t : tree) it level :
  is_end it = true -> erase_subtree_loop ahead t it level = Done (it, level).
Proof.
  intros H. destruct ahead; cbn [erase_subtree_loop];
    rewrite iterator_neb_end, H; reflexivity.
Qed.

Lemma subtree_visit_end (ahead t : tree) it :
  is_end it = true -> subtree_visit ahead t it = Done [].
Proof.
  intros H. destruct ahead; cbn [subtree_visit];
    rewrite iterator_neb_end, H; reflexivity.
Qed.

(** The recursion on the nodes ahead of the cursor is the loop of the
    source: it steps with [++] until the iterator is terminal, and with no
    node ahead the step is the access past the last node. *)
Lemma iterator_incr_past_end (t : tree) it c :
  it_m it = Some c -> drop c t = [] -> iterator_incr t it = Undefined.
Proof.
  intros Hc Hd. unfold iterator_incr, iterator_deref, deref. rewrite Hc.
  rewrite lookup_ge_None_2; [reflexivity|].
  destruct (Nat.le_gt_cases (length t) c) as [|Hlt]; [assumption|].
  apply (f_equal length) in Hd. rewrite length_drop in Hd. simpl in Hd. lia.
Qed.

Lemma erase_subtree_loop_unfold (t : tree) it c level :
  it_m it = Some c ->
  erase_subtree_loop (drop c t) t it level
  = if iterator_neb it subtree_end
    then bind (iterator_incr t it)
           (fun it' => erase_subtree_loop (drop (S c) t) t it' (level_m it))
    else Done (it, level).
Proof.
  intros Hc. destruct (drop c t) as [|n rest] eqn:E; cbn [erase_subtree_loop].
  - destruct (iterator_neb it subtree_end); [|reflexivity].
    rewrite (iterator_incr_past_end t it c Hc E). reflexivity.
  - replace (drop (S c) t) with rest; [reflexivity|].
    rewrite <- (Nat.add_1_l c), Nat.add_comm, <- drop_drop, E. reflexivity.
Qed.

Lemma subtree_visit_unfold (t : tree) it c :
  it_m it = Some c ->
  subtree_visit (drop c t) t it
  = if iterator_neb it subtree_end
    then bind (iterator_deref t it) (fun n =>
         bind (iterator_incr t it) (fun it' =>
         bind (subtree_visit (drop (S c) t) t it') (fun rest => Done (n :: rest))))
    else Done [].
Proof.
  intros Hc. destruct (drop c t) as [|n rest] eqn:E; cbn [subtree_visit].
  - destruct (iterator_neb it subtree_end); [|reflexivity].
    assert (Hd : iterator_deref t it = Undefined).
    { unfold iterator_deref, deref. rewrite Hc.
      rewrite lookup_ge_None_2; [reflexivity|].
      destruct (Nat.le_gt_cases (length t) c) as [|Hlt]; [assumption|].
      apply (f_equal length) in E. rewrite length_drop in E. simpl in E. lia. }
    rewrite Hd. reflexivity.
  - replace (drop (S c) t) with rest; [reflexivity|].
    rewrite <- (Nat.add_1_l c), Nat.add_comm, <- drop_drop, E. reflexivity.
Qed.

(** A step over a node that leaves the subtree open, and one over the node
    that closes it. *)
Lemma incr_level_open level d :
  1 <= level -> level + 1 < drift_modulus -> 0 <= d <= level ->
  (if wrap (level + 1) <? d then 0 else wrap (wrap (level + 1) - d)) = level + 1 - d.
Proof.
  intros H1 H2 H3. rewrite (wrap_small (level + 1)) by lia.
  destruct (Z.ltb_spec (level + 1) d); [lia|]. apply wrap_small. lia.
Qed.

Lemma incr_level_close level d :
  1 <= level -> level + 1 < drift_modulus -> level + 1 <= d ->
  (if wrap (level + 1) <? d then 0 else wrap (wrap (level + 1) - d)) = 0.
Proof.
  intros H1 H2 H3. rewrite (wrap_small (level + 1)) by lia.
  destruct (Z.ltb_spec (level + 1) d); [reflexivity|].
  replace (level + 1 - d) with 0 by lia. reflexivity.
Qed.

Lemma erase_subtree_loop_walk (seg : tree) : forall (A B : tree) x level level0,
  1 <= level -> well_nested (level - 1) seg ->
  open_level level seg + 1 <= drift x ->
  level + size seg + 1 < drift_modulus ->
  erase_subtree_loop (seg ++ x :: B) (A ++ seg ++ x :: B)
    {| it_m := Some (length A); level_m := level |} level0
  = Done ({| it_m := Some (length A + length seg + 1)%nat; level_m := 0 |},
          open_level level seg).
Proof.
  induction seg as [|n seg IH]; intros A B x level level0 Hl Hn Hx Hb.
  - rewrite open_level_nil in *. change (size []) with 0 in Hb.
    cbn [app erase_subtree_loop]. rewrite iterator_neb_end. unfold is_end at 1.
    cbn [level_m]. destruct (Z.eqb_spec level 0); [lia|]. cbn [negb].
    rewrite iterator_incr_middle. cbn [bind].
    rewrite incr_level_close by lia.
    rewrite erase_subtree_loop_end by reflexivity.
    simpl length. replace (length A + 0 + 1)%nat with (S (length A)) by lia. reflexivity.
  - cbn [well_nested] in Hn. destruct Hn as [Hd Hn].
    rewrite open_level_cons in *. rewrite size_cons in Hb.
    pose proof (size_nonneg seg).
    rewrite <- !app_comm_cons. cbn [erase_subtree_loop].
    rewrite iterator_neb_end. unfold is_end at 1.
    cbn [level_m]. destruct (Z.eqb_spec level 0); [lia|]. cbn [negb].
    rewrite iterator_incr_middle. cbn [bind].
    rewrite incr_level_open by lia.
    rewrite (cons_middle A (seg ++ x :: B) n).
    replace (S (length A)) with (length (A ++ [n])) by (rewrite length_app; simpl; lia).
    rewrite IH; try lia.
    + rewrite length_app. simpl length.
      replace (length A + 1 + length seg + 1)%nat with (length A + S (length seg) + 1)%nat by lia.
      reflexivity.
    + replace (level + 1 - drift n - 1) with (level - 1 + 1 - drift n) by lia. exact Hn.
Qed.

Lemma subtree_visit_walk (seg : tree) : forall (A B : tree) x level,
  1 <= level -> well_nested (level - 1) seg ->
  open_level level seg + 1 <= drift x ->
  level + size seg + 1 < drift_modulus ->
  subtree_visit (seg ++ x :: B) (A ++ seg ++ x :: B)
    {| it_m := Some (length A); level_m := level |}
  = Done (seg ++ [x]).
Proof.
  induction seg as [|n seg IH]; intros A B x level Hl Hn Hx Hb.
  - rewrite open_level_nil in *. change (size []) with 0 in Hb.
    cbn [app subtree_visit]. rewrite iterator_neb_end. unfold is_end at 1.
    cbn [level_m]. destruct (Z.eqb_spec level 0); [lia|]. cbn [negb].
    unfold iterator_deref at 1. cbn [it_m]. rewrite deref_middle. cbn [bind].
    rewrite iterator_incr_middle. cbn [bind].
    rewrite incr_level_close by lia.
    rewrite subtree_visit_end by reflexivity. reflexivity.
  - cbn [well_nested] in Hn. destruct Hn as [Hd Hn].
    rewrite open_level_cons in *. rewrite size_cons in Hb.
    pose proof (size_nonneg seg).
    rewrite <- !app_comm_cons. cbn [subtree_visit].
    rewrite iterator_neb_end. unfold is_end at 1.
    cbn [level_m]. destruct (Z.eqb_spec level 0); [lia|]. cbn [negb].
    unfold iterator_deref at 1. cbn [it_m]. rewrite deref_middle. cbn [bind].
    rewrite iterator_incr_middle. cbn [bind].
    rewrite incr_level_open by lia.
    rewrite (cons_middle A (seg ++ x :: B) n).
    replace (S (length A)) with (length (A ++ [n])) by (rewrite length_app; simpl; lia).
    rewrite IH; try lia.
    + reflexivity.
    + replace (level + 1 - drift n - 1) with (level - 1 + 1 - drift n) by lia. exact Hn.
Qed.

(** Behind a node with children in a nested sequence that returns to the
    node's level, the subtree is a segment closed by its last node. *)
Lemma subtree_split (post : tree) : forall level bound,
  1 <= level -> well_nested bound post -> open_level level post <= 0 ->
  exists seg x rest,
    post = seg ++ x :: rest /\ well_nested (level - 1) seg
    /\ open_level level seg + 1 <= drift x.
Proof.
  induction post as [|n post IH]; intros level bound Hl Hn Ho.
  - rewrite open_level_nil in Ho. lia.
  - cbn [well_nested] in Hn. destruct Hn as [Hd Hn]. rewrite open_level_cons in Ho.
    destruct (Z_le_gt_dec (level + 1) (drift n)) as [Hc|Hc].
    + exists [], n, post. rewrite open_level_nil. cbn [well_nested]. auto.
    + destruct (IH (level + 1 - drift n) _ ltac:(lia) Hn Ho)
        as (seg & x & rest & -> & Hs & Hx).
      exists (n :: seg), x, rest. rewrite open_level_cons. cbn [well_nested].
      splits; try lia; [reflexivity|].
      replace (level - 1 + 1 - drift n) with (level + 1 - drift n - 1) by lia. exact Hs.
Qed.

(** ** erase_subtree on a split sequence *)

Lemma erase_subtree_outside (t : tree) st :
  (length t <= st)%nat -> erase_subtree t st = Undefined.
Proof.
  intros H. unfold erase_subtree, subtree_begin, iterator_at, deref.
  rewrite lookup_ge_None_2 by lia. reflexivity.
Qed.

Lemma drop_middle (pre post : tree) (a : node_t) :
  drop (length pre + 1) (pre ++ a :: post) = post.
Proof.
  rewrite (cons_middle pre post a).
  replace (length pre + 1)%nat with (length (pre ++ [a])) by (rewrite length_app; reflexivity).
  apply drop_app_length.
Qed.

Lemma take_middle (pre post : tree) (a : node_t) :
  take (length pre + 1) (pre ++ a :: post) = pre ++ [a].
Proof.
  rewrite (cons_middle pre post a).
  replace (length pre + 1)%nat with (length (pre ++ [a])) by (rewrite length_app; reflexivity).
  apply take_app_length.
Qed.

Lemma vec_erase_range_segment (P S R : tree) :
  vec_erase_range (length P) (length P + length S) (P ++ S ++ R)
  = Done (P ++ R, length P).
Proof.
  unfold vec_erase_range.
  destruct (Nat.leb_spec (length P) (length P + length S)) as [_|Hlt]; [|lia].
  destruct (Nat.leb_spec (length P + length S) (length (P ++ S ++ R))) as [_|Hlt];
    [|rewrite !length_app in Hlt; lia].
  cbn [andb]. rewrite take_app_length.
  rewrite app_assoc.
  replace (length P + length S)%nat with (length (P ++ S)) by (rewrite length_app; reflexivity).
  rewrite drop_app_length. reflexivity.
Qed.

Lemma erase_subtree_leaf (pre post : tree) a :
  drift a <> 0 -> 0 <= drift a < drift_modulus ->
  erase_subtree (pre ++ a :: post) (length pre)
  = Done (pre ++ a :: post, (length pre + 1)%nat).
Proof.
  intros Ha Hr. unfold erase_subtree, subtree_begin.
  rewrite iterator_at_middle. cbn [bind it_m level_m].
  destruct (Z.eqb_spec (drift a) 0); [contradiction|].
  rewrite erase_subtree_loop_end by reflexivity. cbn [bind it_m].
  replace (Nat.pred (length pre + 1)) with (length pre) by lia.
  rewrite deref_middle. cbn [bind].
  rewrite Z.sub_0_r, wrap_small by exact Hr.
  rewrite store_drift_middle, set_drift_same. cbn [bind].
  unfold vec_erase_range. rewrite Nat.leb_refl. cbn [andb].
  destruct (Nat.leb_spec (length pre + 1) (length (pre ++ a :: post))) as [_|Hlt].
  - rewrite take_drop. reflexivity.
  - rewrite length_app in Hlt. simpl in Hlt. lia.
Qed.

Lemma erase_subtree_children (pre seg rest : tree) a x :
  drift a = 0 -> well_nested 0 seg ->
  open_level 1 seg + 1 <= drift x -> drift x < drift_modulus ->
  size seg + 2 < drift_modulus ->
  erase_subtree (pre ++ a :: seg ++ x :: rest) (length pre)
  = Done (pre ++ set_drift (drift x - open_level 1 seg) a :: rest,
          (length pre + 1)%nat).
Proof.
  intros Ha Hn Hx Hr Hb. unfold erase_subtree, subtree_begin.
  rewrite iterator_at_middle. cbn [bind it_m level_m].
  rewrite Ha. cbn [Z.eqb]. unfold ahead_of. cbn [it_m].
  rewrite drop_middle.
  rewrite (cons_middle pre (seg ++ x :: rest) a).
  replace (length pre + 1)%nat with (length (pre ++ [a])) by (rewrite length_app; reflexivity).
  rewrite erase_subtree_loop_walk by (try exact Hn; try exact Hx; lia).
  cbn [bind it_m].
  replace (Nat.pred (length (pre ++ [a]) + length seg + 1))
    with (length ((pre ++ [a]) ++ seg)) by (rewrite !length_app; simpl; lia).
  rewrite (app_assoc (pre ++ [a]) seg (x :: rest)).
  rewrite deref_middle. cbn [bind].
  pose proof (well_nested_open_level 0 seg ltac:(lia) Hn) as Ho.
  rewrite (open_level_shift 1) in *.
  rewrite wrap_small by lia.
  rewrite <- !app_assoc. cbn [app].
  rewrite store_drift_middle. cbn [bind].
  set (a' := set_drift _ a).
  replace (length (pre ++ [a])) with (length (pre ++ [a']))
    by (rewrite !length_app; reflexivity).
  replace (length (pre ++ [a']) + length seg + 1)%nat
    with (length (pre ++ [a']) + length (seg ++ [x]))%nat
    by (rewrite !length_app; simpl; lia).
  replace (pre ++ a' :: seg ++ x :: rest) with ((pre ++ [a']) ++ (seg ++ [x]) ++ rest)
    by (rewrite <- !app_assoc; reflexivity).
  rewrite vec_erase_range_segment, <- app_assoc, length_app. reflexivity.
Qed.

(** Every position of a valid tree is of one of the two shapes above. *)
Lemma valid_tree_subtree_shape (pre post : tree) a :
  valid_tree (pre ++ a :: post) ->
  (drift a <> 0 /\ 0 <= drift a < drift_modulus)
  \/ (drift a = 0 /\ exists seg x rest,
        post = seg ++ x :: rest /\ well_nested 0 seg
        /\ open_level 1 seg + 1 <= drift x /\ drift x < drift_modulus
        /\ size seg + 2 < drift_modulus).
Proof.
  intros Hv. destruct (Z.eq_dec (drift a) 0) as [Ha|Ha].
  - right. split; [exact Ha|].
    assert (Hpost : well_nested (open_level 0 pre + 1) post /\ open_level 1 post <= 0).
    { levels. rewrite Ha in *. split; [nested|lia]. }
    destruct Hpost as [Hn Ho].
    destruct (subtree_split post 1 _ ltac:(lia) Hn Ho) as (seg & x & rest & -> & Hs & Hx).
    exists seg, x, rest. splits; try assumption; try reflexivity.
    + levels. lia.
    + levels. pose proof (size_nonneg pre). pose proof (size_nonneg rest). lia.
  - left. split; [exact Ha|]. levels. lia.
Qed.

Lemma erase_subtree_valid (t : tree) st t' it :
  valid_tree t -> erase_subtree t st = Done (t', it) ->
  valid_tree t' /\ size t' <= size t.
Proof.
  intros Hv H.
  destruct (position_cases t st) as [(pre & a & post & -> & ->)|Hout].
  - destruct (valid_tree_subtree_shape _ _ _ Hv)
      as [[Ha Hr]|(Ha & seg & x & rest & -> & Hn & Hx & Hr & Hb)].
    + rewrite erase_subtree_leaf in H by assumption. injection H as <- <-.
      split; [exact Hv|lia].
    + rewrite erase_subtree_children in H by assumption. injection H as <- <-.
      rewrite (open_level_shift 1) in *. levels.
      splits; try lia; try assumption. nested.
  - rewrite erase_subtree_outside in H by lia. discriminate.
Qed.

(** ** The invariant of the reachable trees *)

Lemma reachable_valid (t : tree) :
  reachable max_size tree_range t -> valid_tree t /\ size t <= max_size.
Proof.
  induction 1 as [|t t' Hr [Hv Hsz] Hc].
  - split; [apply valid_tree_nil|]. change (size []) with 0. lia.
  - destruct Hc.
    + eapply push_root_valid; eassumption.
    + eapply push_back_drifted_valid; eassumption.
    + eapply push_back_drifted_valid; [eassumption| |eassumption].
      unfold DRIFT_CHILD. rewrite drift_modulus_eq. lia.
    + eapply push_back_drifted_valid; [eassumption| |eassumption].
      unfold DRIFT_SIBLING. rewrite drift_modulus_eq. lia.
    + eapply push_back_level_valid; eassumption.
    + destruct (pop_back_valid _ _ Hv H). split; [assumption|lia].
    + eapply insert_first_child_valid; eassumption.
    + eapply insert_child_tree_valid; eassumption.
    + eapply insert_sibling_valid; eassumption.
    + destruct (erase_leaf_valid _ _ _ _ Hv H). split; [assumption|lia].
    + destruct (erase_subtree_valid _ _ _ _ Hv H). split; [assumption|lia].
Qed.

(** ** Levels along a traversal *)

Lemma well_nested_take lvl (t : tree) c : well_nested lvl t -> well_nested lvl (take c t).
Proof.
  intros H. rewrite <- (take_drop c t) in H. apply well_nested_app in H. tauto.
Qed.

Lemma level_of_S (t : tree) c n :
  t !! c = Some n -> level_of t (S c) = level_of t c + 1 - drift n.
Proof.
  intros H. unfold level_of. rewrite (take_S_r _ _ _ H), open_level_app.
  rewrite open_level_cons, open_level_nil. reflexivity.
Qed.

Lemma level_of_bounds (t : tree) c :
  valid_tree t -> 0 <= level_of t c <= Z.of_nat c.
Proof.
  intros (Hn & _ & _). unfold level_of.
  pose proof (well_nested_open_level 0 (take c t) ltac:(lia) (well_nested_take 0 t c Hn)) as H.
  unfold size in H. rewrite length_take in H. lia.
Qed.

Lemma level_of_end (t : tree) c :
  valid_tree t -> (length t <= c)%nat -> level_of t c = 0.
Proof.
  intros (_ & Hs & _) Hc. unfold level_of, open_level.
  rewrite take_ge by exact Hc. lia.
Qed.

Lemma valid_tree_drift_at (t : tree) c n :
  valid_tree t -> t !! c = Some n -> 0 <= drift n <= level_of t c + 1.
Proof.
  intros (Hn & _ & _) H. unfold level_of.
  rewrite <- (take_drop_middle _ _ _ H) in Hn.
  apply well_nested_app in Hn as [_ Hn]. cbn [well_nested] in Hn. tauto.
Qed.

Lemma iterator_incr_Done (t : tree) it it' :
  iterator_incr t it = Done it' ->
  exists c n, it_m it = Some c /\ t !! c = Some n
    /\ it' = {| it_m := Some (S c);
                level_m := if wrap (level_m it + 1) <? drift n then 0
                           else wrap (wrap (level_m it + 1) - drift n) |}.
Proof.
  unfold iterator_incr, iterator_deref, deref.
  destruct (it_m it) as [c|]; [|discriminate].
  destruct (t !! c) as [n|] eqn:E; [|discriminate].
  cbn [bind]. intros [= <-]. exists c, n. splits; [reflexivity|exact E|reflexivity].
Qed.

Lemma visiting_levels (t : tree) p it :
  valid_tree t -> visiting t p it ->
  exists c, it_m it = Some c /\ (c <= length t)%nat
            /\ 0 <= level_m it <= level_of t c.
Proof.
  intros Hv Hi. induction Hi as [it Hb|it it' Hi (c & Hc & Hle & Hl) Hs].
  - unfold subtree_begin, iterator_at, deref in Hb.
    destruct (t !! p) as [n|] eqn:E; [|discriminate]. cbn [bind] in Hb.
    injection Hb as <-. exists (p + 1)%nat. cbn [it_m level_m].
    pose proof (lookup_lt_Some _ _ _ E).
    replace (p + 1)%nat with (S p) by lia. rewrite (level_of_S _ _ _ E).
    pose proof (level_of_bounds t p Hv). pose proof (valid_tree_drift_at _ _ _ Hv E).
    splits; [reflexivity|lia|destruct (Z.eqb_spec (drift n) 0); lia
            |destruct (Z.eqb_spec (drift n) 0); lia].
  - apply iterator_incr_Done in Hs as (c' & n & Hc' & E & ->).
    rewrite Hc in Hc'. injection Hc' as <-.
    exists (S c). cbn [it_m level_m]. pose proof (lookup_lt_Some _ _ _ E).
    rewrite (level_of_S _ _ _ E).
    pose proof (level_of_bounds t c Hv). pose proof (valid_tree_drift_at _ _ _ Hv E).
    destruct Hv as (_ & _ & Hz). unfold size in Hz.
    rewrite (wrap_small (level_m it + 1)) by lia.
    splits; [reflexivity|lia| |];
      (destruct (Z.ltb_spec (level_m it + 1) (drift n)); [lia|rewrite wrap_small by lia; lia]).
Qed.

(** ** The nodes of a subtree view, and the descendants by level *)

Lemma subtree_nodes_leaf (pre post : tree) a :
  drift a <> 0 -> subtree_nodes (pre ++ a :: post) (length pre) = Done [].
Proof.
  intros Ha. unfold subtree_nodes, subtree_begin.
  rewrite iterator_at_middle. cbn [bind].
  destruct (Z.eqb_spec (drift a) 0); [contradiction|].
  apply subtree_visit_end. reflexivity.
Qed.

Lemma subtree_nodes_children (pre seg rest : tree) a x :
  drift a = 0 -> well_nested 0 seg ->
  open_level 1 seg + 1 <= drift x -> size seg + 2 < drift_modulus ->
  subtree_nodes (pre ++ a :: seg ++ x :: rest) (length pre) = Done (seg ++ [x]).
Proof.
  intros Ha Hn Hx Hb. unfold subtree_nodes, subtree_begin.
  rewrite iterator_at_middle. cbn [bind]. rewrite Ha. cbn [Z.eqb].
  unfold ahead_of. cbn [it_m]. rewrite drop_middle.
  rewrite (cons_middle pre (seg ++ x :: rest) a).
  replace (length pre + 1)%nat with (length (pre ++ [a])) by (rewrite length_app; reflexivity).
  apply subtree_visit_walk; try assumption; lia.
Qed.

Lemma level_of_anchor (pre post : tree) (a : node_t) :
  level_of (pre ++ a :: post) (length pre) = open_level 0 pre.
Proof. unfold level_of. rewrite take_app_length. reflexivity. Qed.

Lemma level_of_behind (pre post : tree) (a : node_t) m :
  level_of (pre ++ a :: post) (length pre + 1 + m)
  = open_level 0 pre + 1 - drift a + open_level 0 (take m post).
Proof.
  unfold level_of. rewrite (cons_middle pre post a).
  rewrite (take_app_add' (pre ++ [a])) by (rewrite length_app; reflexivity).
  rewrite <- app_assoc. cbn [app].
  rewrite open_level_app, open_level_cons, (open_level_shift (_ + 1 - _)). reflexivity.
Qed.

Lemma descendant_leaf (pre post : tree) a j :
  0 < drift a -> ~ descendant (pre ++ a :: post) (length pre) j.
Proof.
  intros Ha [Hj Hk]. specialize (Hk (length pre + 1 + 0)%nat ltac:(lia)).
  rewrite level_of_anchor, level_of_behind, take_0, open_level_nil in Hk. lia.
Qed.

Lemma descendant_children (pre seg rest : tree) a x j :
  drift a = 0 -> well_nested 0 seg -> open_level 1 seg + 1 <= drift x ->
  descendant (pre ++ a :: seg ++ x :: rest) (length pre) j
  <-> (length pre < j <= length pre + length (seg ++ [x]))%nat.
Proof.
  intros Ha Hn Hx. rewrite length_app. simpl length. split.
  - intros [Hj Hk]. split; [lia|].
    destruct (Nat.le_gt_cases j (length pre + (length seg + 1))) as [|Hgt]; [assumption|].
    specialize (Hk (length pre + 1 + S (length seg))%nat ltac:(lia)).
    rewrite level_of_anchor, level_of_behind in Hk.
    rewrite (cons_middle seg rest x) in Hk.
    rewrite take_app_length' in Hk by (rewrite length_app; simpl; lia).
    rewrite open_level_app, open_level_cons, open_level_nil in Hk.
    rewrite (open_level_shift 1) in Hx. lia.
  - intros Hj. split.
    + rewrite !length_app. simpl length. rewrite length_app. simpl length. lia.
    + intros k Hk. replace k with (length pre + 1 + (k - length pre - 1))%nat by lia.
      rewrite level_of_anchor, level_of_behind.
      rewrite take_app_le by lia.
      pose proof (well_nested_open_level 0 _ ltac:(lia)
                    (well_nested_take 0 seg (k - length pre - 1) Hn)).
      lia.
Qed.

(** [erase_subtree] on a valid tree: what is removed, what the view
    enumerates, what the descendants are, and the anchor's new drift. *)
Lemma erase_subtree_removes_descendants (pre post : tree) a :
  valid_tree (pre ++ a :: post) ->
  exists removed rest a',
    post = removed ++ rest
    /\ erase_subtree (pre ++ a :: post) (length pre)
       = Done (pre ++ a' :: rest, (length pre + 1)%nat)
    /\ subtree_nodes (pre ++ a :: post) (length pre) = Done removed
    /\ (forall j, descendant (pre ++ a :: post) (length pre) j
                  <-> (length pre < j <= length pre + length removed)%nat)
    /\ data a' = data a
    /\ (removed = [] -> a' = a)
    /\ (forall l, last removed = Some l ->
          drift a' = drift l
                     - (level_of (pre ++ a :: post) (length pre + length removed)
                        - level_of (pre ++ a :: post) (length pre))).
Proof.
  intros Hv.
  destruct (valid_tree_subtree_shape _ _ _ Hv)
    as [[Ha Hr]|(Ha & seg & x & rest & -> & Hn & Hx & Hr & Hb)].
  - exists [], post, a. splits.
    + reflexivity.
    + apply erase_subtree_leaf; assumption.
    + apply subtree_nodes_leaf; assumption.
    + intros j. split.
      * intros Hd. exfalso. revert Hd. apply descendant_leaf. lia.
      * simpl. lia.
    + reflexivity.
    + reflexivity.
    + discriminate.
  - exists (seg ++ [x]), rest, (set_drift (drift x - open_level 1 seg) a). splits.
    + rewrite <- app_assoc. reflexivity.
    + apply erase_subtree_children; assumption.
    + apply subtree_nodes_children; assumption.
    + intros j. apply descendant_children; assumption.
    + reflexivity.
    + destruct seg; discriminate.
    + intros l Hl. rewrite last_snoc in Hl. injection Hl as <-.
      cbn [drift set_drift]. rewrite level_of_anchor.
      replace (length pre + length (seg ++ [x]))%nat with (length pre + 1 + length seg)%nat
        by (rewrite length_app; simpl; lia).
      rewrite level_of_behind, take_app_length, Ha, (open_level_shift 1). lia.
Qed.

(** An assertion [back_drift < 1 + d] that passes in [drift_t] shows that
    [1 + d] did not wrap. *)
Lemma below_wrapped_succ d back_drift :
  0 <= d < drift_modulus -> 0 <= back_drift -> back_drift < wrap (1 + d) ->
  1 + d < drift_modulus.
Proof.
  intros Hd Hb Hlt. destruct (Z.eq_dec d (drift_modulus - 1)) as [E|E]; [|lia].
  rewrite E in Hlt. replace (1 + (drift_modulus - 1)) with drift_modulus in Hlt by lia.
  unfold wrap in Hlt. rewrite Z.mod_same in Hlt by (rewrite drift_modulus_eq; lia). lia.
Qed.

(** ** The specification, claim by claim *)

(** C2. On a tree whose last node [l] has drift [d], [push_back_drifted]
    with [back_drift < 1 + d] (the sum formed in [drift_t], as the assertion
    forms it) and room for one more node returns the earlier nodes as they
    were, then a node with [l]'s data and the drift [back_drift], then one
    new node of drift [1 + d - back_drift] with the given data; it stops on
    its assertion when the tree is empty or [back_drift >= 1 + d];
    [push_back_child] and [push_back_sibling] are [push_back_drifted] with
    [back_drift] 0 and 1. *)
Theorem push_back_drifted_spec (init : tree) (l : node_t) (d : data_t) (back_drift : Z) :
  0 <= drift l < drift_modulus -> 0 <= back_drift < drift_modulus ->
  (back_drift < wrap (1 + drift l) -> size (init ++ [l]) < max_size ->
   push_back_drifted max_size (init ++ [l]) d back_drift
   = Done (init ++ [Node back_drift (data l); Node (1 + drift l - back_drift) d]))
  /\ (wrap (1 + drift l) <= back_drift ->
      push_back_drifted max_size (init ++ [l]) d back_drift = AssertionFailed)
  /\ push_back_drifted max_size [] d back_drift = AssertionFailed
  /\ (forall t : tree,
        push_back_child max_size t d = push_back_drifted max_size t d 0
        /\ push_back_sibling max_size t d = push_back_drifted max_size t d 1).
Proof.
  intros Hl Hb. splits.
  - intros Hlt Hcap. rewrite push_back_drifted_snoc.
    destruct (Z.ltb_spec back_drift (wrap (1 + drift l))) as [_|]; [|lia].
    destruct (Z.leb_spec max_size (size (init ++ [l]))) as [|_]; [lia|].
    pose proof (below_wrapped_succ _ _ Hl (proj1 Hb) Hlt) as Hs.
    rewrite (wrap_small (1 + drift l)) in * by lia. rewrite wrap_small by lia. reflexivity.
  - intros Hge. rewrite push_back_drifted_snoc.
    destruct (Z.ltb_spec back_drift (wrap (1 + drift l))) as [|_]; [lia|reflexivity].
  - reflexivity.
  - intros t. split; reflexivity.
Qed.

(** In [drift_t] the sum [1 + d] is the integer sum unless [d] is the
    largest [drift_t] value. *)
Lemma wrap_succ_drift d :
  0 <= d < drift_modulus - 1 -> wrap (1 + d) = 1 + d.
Proof. intros H. apply wrap_small. lia. Qed.

(** C9. On any tree and any position of a node, [insert_child_tree] with an
    empty range returns the tree as it was, together with the position
    behind the target. *)
Theorem insert_child_tree_empty_range (t : tree) (i : nat) :
  (i < length t)%nat ->
  insert_child_tree max_size t i [] = Done (t, (i + 1)%nat).
Proof. apply insert_child_tree_nil. Qed.

(** C10. On a tree whose last node has drift [d], a returning
    [push_back_drifted] with [back_drift < 1 + d] followed by [pop_back]
    gives the tree back. *)
Theorem pop_back_push_back_drifted (init : tree) (l : node_t) (d : data_t) (back_drift : Z) :
  0 <= drift l < drift_modulus -> 0 <= back_drift < drift_modulus ->
  back_drift < wrap (1 + drift l) -> size (init ++ [l]) < max_size ->
  exists t', push_back_drifted max_size (init ++ [l]) d back_drift = Done t'
             /\ pop_back t' = Done (init ++ [l]).
Proof.
  intros Hl Hb Hlt Hcap. rewrite push_back_drifted_snoc.
  destruct (Z.ltb_spec back_drift (wrap (1 + drift l))) as [_|]; [|lia].
  destruct (Z.leb_spec max_size (size (init ++ [l]))) as [|_]; [lia|].
  eexists. split; [reflexivity|]. rewrite pop_back_snoc2. cbn [drift set_drift data].
  do 2 f_equal.
  pose proof (below_wrapped_succ _ _ Hl (proj1 Hb) Hlt) as Hs.
  rewrite (wrap_small (1 + drift l)) in * by lia.
  rewrite (wrap_small (1 + drift l - back_drift)) by lia.
  rewrite (wrap_small (1 + drift l - back_drift - 1)) by lia.
  replace (back_drift + (1 + drift l - back_drift - 1)) with (drift l) by lia.
  rewrite wrap_small by lia. destruct l; reflexivity.
Qed.

(** C3. In a valid tree the iterator of the subtree of position [p] starts
    with its cursor at [p + 1] and [levels_open] 1 when the node at [p] has
    drift 0 and 0 otherwise. For every state of a traversal the cursor is a
    position; while the state is not terminal a node is there; and a step
    over the node [n] at the cursor, with [levels_open] first increased by
    one, makes the iterator terminal when that is smaller than [n]'s drift,
    and otherwise takes [n]'s drift off it and moves the cursor one node
    on (the cursor moves on in the terminal case as well). *)
Theorem subtree_iterator_steps (t : tree) (p : nat) :
  valid_tree t -> (p < length t)%nat ->
  (exists n, t !! p = Some n
     /\ subtree_begin t p
        = Done {| it_m := Some (p + 1)%nat;
                  level_m := if has_children n then 1 else 0 |})
  /\ forall it, visiting t p it ->
       exists c, it_m it = Some c
         /\ (is_end it = false -> is_Some (t !! c))
         /\ forall n, t !! c = Some n ->
              let levels_open := level_m it + 1 in
              exists it', iterator_incr t it = Done it'
                /\ (levels_open < drift n -> is_end it' = true)
                /\ (drift n <= levels_open ->
                    level_m it' = levels_open - drift n
                    /\ it_m it' = Some (c + 1)%nat)
                /\ it_m it' = Some (c + 1)%nat.
Proof.
  intros Hv Hp. split.
  - destruct (lookup_lt_is_Some_2 t p Hp) as [n E]. exists n. split; [exact E|].
    unfold subtree_begin, iterator_at, deref, has_children. rewrite E. reflexivity.
  - intros it Hi. destruct (visiting_levels t p it Hv Hi) as (c & Hc & Hle & Hl).
    exists c. splits; [exact Hc| |].
    + intros He. apply lookup_lt_is_Some_2.
      unfold is_end in He. apply Z.eqb_neq in He.
      destruct (Nat.lt_ge_cases c (length t)) as [|Hge]; [assumption|].
      rewrite (level_of_end t c Hv Hge) in Hl. lia.
    + intros n E levels_open. subst levels_open.
      pose proof (lookup_lt_Some _ _ _ E).
      pose proof (level_of_bounds t c Hv). pose proof (valid_tree_drift_at _ _ _ Hv E).
      destruct Hv as (_ & _ & Hz). unfold size in Hz.
      eexists. split.
      * unfold iterator_incr, iterator_deref, deref. rewrite Hc, E. cbn [bind]. reflexivity.
      * cbn [level_m it_m is_end]. rewrite (wrap_small (level_m it + 1)) by lia.
        replace (S c) with (c + 1)%nat by lia.
        destruct (Z.ltb_spec (level_m it + 1) (drift n)); splits;
          try lia; try reflexivity.
        intros _. rewrite wrap_small by lia. split; reflexivity.
Qed.

(** Equality of vector iterators decides equality of positions. *)
Lemma cursor_eqb_eq a b : cursor_eqb a b = true <-> a = b.
Proof.
  destruct a as [x|], b as [y|]; cbn [cursor_eqb]; try (split; congruence).
  rewrite Nat.eqb_eq. split; congruence.
Qed.

(** C8. Two terminal subtree iterators are equal whatever their cursors; a
    terminal one is never equal to one that is not; two that are not
    terminal are equal exactly when their cursors coincide; hence two equal
    iterators with different cursors are both terminal. *)
Theorem iterator_eqb_spec (a b : iterator) :
  (is_end a = true -> is_end b = true -> iterator_eqb a b = true)
  /\ (is_end a = true -> is_end b = false ->
      iterator_eqb a b = false /\ iterator_eqb b a = false)
  /\ (is_end a = false -> is_end b = false ->
      (iterator_eqb a b = true <-> it_m a = it_m b))
  /\ (iterator_eqb a b = true -> it_m a <> it_m b ->
      is_end a = true /\ is_end b = true).
Proof.
  unfold iterator_eqb, is_end. splits.
  - intros Ha Hb. rewrite Ha. cbn [orb].
    apply Z.eqb_eq in Ha, Hb. apply Z.eqb_eq. congruence.
  - intros Ha Hb. rewrite Ha, Hb. cbn [orb].
    apply Z.eqb_eq in Ha. apply Z.eqb_neq in Hb.
    split; apply Z.eqb_neq; congruence.
  - intros Ha Hb. rewrite Ha, Hb. cbn [orb]. apply cursor_eqb_eq.
  - intros He Hne.
    destruct (level_m a =? 0) eqn:Ha, (level_m b =? 0) eqn:Hb; cbn [orb] in He.
    + split; reflexivity.
    + apply Z.eqb_eq in Ha, He. apply Z.eqb_neq in Hb. congruence.
    + apply Z.eqb_eq in Hb, He. apply Z.eqb_neq in Ha. congruence.
    + apply cursor_eqb_eq in He. contradiction.
Qed.

(** C7 (as amended). On a valid tree with room for one more node,
    [insert_first_child] at the position of a node [x] leaves the other
    nodes as they were, puts a node with [x]'s data and the drift 0 in the
    place of [x], and directly behind it the new node, with the drift
    [1 + d], where [d] was [x]'s drift; it returns the position of the new
    node. *)
Theorem insert_first_child_spec (pre post : tree) (x : node_t) (d : data_t) :
  valid_tree (pre ++ x :: post) -> size (pre ++ x :: post) < max_size ->
  insert_first_child max_size (pre ++ x :: post) (length pre) d
  = Done (pre ++ Node 0 (data x) :: Node (1 + drift x) d :: post, S (length pre)).
Proof.
  intros Hv Hcap. rewrite insert_first_child_middle.
  destruct (Z.leb_spec max_size (size (pre ++ x :: post))) as [|_]; [lia|].
  levels. rewrite wrap_small by lia. reflexivity.
Qed.

(** C6 (as amended). On a valid tree with room for one more node,
    [push_root] puts the new node in front of the sequence, keeps the
    earlier nodes in their order, and the subtree view of the new node
    enumerates all of them. On the empty tree the result is the single node
    with drift 1; otherwise the new node has drift 0 and the last node's
    drift grows by one. *)
Theorem push_root_spec (t : tree) (v : data_t) :
  valid_tree t -> size t < max_size ->
  exists t',
    push_root max_size t v = Done t'
    /\ (t = [] -> t' = [Node 1 v])
    /\ (forall init l, t = init ++ [l] ->
          t' = Node 0 v :: init ++ [set_drift (drift l + 1) l])
    /\ map data t' = v :: map data t
    /\ subtree_nodes t' 0 = Done (tail t')
    /\ length (tail t') = length t.
Proof.
  intros Hv Hcap. destruct (tree_snoc_cases t) as [->|(init & l & ->)].
  - rewrite push_root_nil. change (size []) with 0 in Hcap.
    destruct (Z.leb_spec max_size 0) as [|_]; [lia|].
    eexists. splits; try reflexivity.
    intros init l E. destruct init; discriminate.
  - rewrite push_root_snoc.
    destruct (Z.leb_spec max_size (size (init ++ [l]))) as [|_]; [lia|].
    apply valid_tree_snoc in Hv as (Hn & Hd & Hz).
    pose proof (well_nested_open_level 0 init ltac:(lia) Hn) as Ho.
    rewrite size_app, size_cons in Hcap. change (size []) with 0 in Hcap.
    rewrite wrap_small by lia.
    eexists. splits.
    + reflexivity.
    + intros E. destruct init; discriminate.
    + intros init' l' E. apply app_inj_tail in E as [-> ->]. reflexivity.
    + cbn [map data]. rewrite !map_app. reflexivity.
    + cbn [tail].
      change (Node 0 v :: init ++ [set_drift (drift l + 1) l])
        with ([] ++ Node 0 v :: init ++ set_drift (drift l + 1) l :: []).
      change 0%nat with (length (@nil node_t)).
      apply subtree_nodes_children; try assumption; try reflexivity.
      * cbn [drift set_drift]. rewrite (open_level_shift 1). lia.
      * lia.
    + cbn [tail]. rewrite !length_app. reflexivity.
Qed.

(** ** Further properties: which trees can be built *)

Lemma level_of_app_l (A B : tree) i :
  (i <= length A)%nat -> level_of (A ++ B) i = level_of A i.
Proof. intros H. unfold level_of. rewrite take_app_le by exact H. reflexivity. Qed.

Lemma level_of_app_r (A B : tree) k :
  level_of (A ++ B) (length A + k) = open_level 0 A + open_level 0 (take k B).
Proof.
  unfold level_of. rewrite take_app_add, open_level_app.
  apply open_level_shift.
Qed.

Lemma level_of_length (A : tree) : level_of A (length A) = open_level 0 A.
Proof. unfold level_of. rewrite take_ge by lia. reflexivity. Qed.

Ltac sizes :=
  repeat first [ rewrite size_app in * | rewrite size_cons in * ];
  change (size (@nil node_t)) with 0 in *.

Lemma valid_snoc_reachable (range_ok : tree -> Prop) (init : tree) : forall l,
  valid_tree (init ++ [l]) -> size (init ++ [l]) <= max_size ->
  reachable max_size range_ok (init ++ [l]).
Proof.
  induction init as [|p init0 IH] using rev_ind; intros l Hv Hsz.
  - apply valid_tree_snoc in Hv as (_ & Hd & _). rewrite open_level_nil in Hd.
    apply (reachable_call _ _ []); [apply reachable_empty|].
    apply (call_push_root _ _ [] (data l)). rewrite push_root_nil.
    change (size ([] ++ [l])) with 1 in Hsz.
    destruct (Z.leb_spec max_size 0); [lia|].
    destruct l as [dl xl]. cbn [drift data] in *. subst dl. reflexivity.
  - apply valid_tree_snoc in Hv as (Hn & Hd & Hz).
    apply well_nested_app in Hn as [Hn0 Hp]. cbn [well_nested] in Hp.
    destruct Hp as [Hp _].
    pose proof (well_nested_open_level 0 init0 ltac:(lia) Hn0) as Ho.
    set (p' := set_drift (open_level 0 init0 + 1) p).
    assert (Hr : reachable max_size range_ok (init0 ++ [p'])).
    { apply IH.
      - apply valid_tree_snoc. splits; [exact Hn0|reflexivity|sizes; lia].
      - sizes. lia. }
    sizes.
    apply (reachable_call _ _ _ _ Hr).
    apply (call_push_back_drifted _ _ _ (data l) (drift p)); [lia|].
    rewrite push_back_drifted_snoc. subst p'. cbn [drift set_drift data].
    rewrite (wrap_small (1 + _)) by lia.
    destruct (Z.ltb_spec (drift p) (1 + (open_level 0 init0 + 1))); [|lia].
    sizes.
    destruct (Z.leb_spec max_size (size init0 + (1 + 0))); [lia|].
    rewrite wrap_small by lia. rewrite <- app_assoc. cbn [app].
    rewrite open_level_app, open_level_cons, open_level_nil in Hd.
    destruct p as [dp xp], l as [dl xl]. cbn [drift data set_drift] in *.
    subst dl. unfold set_drift. cbn [drift data].
    replace (1 + (open_level 0 init0 + 1) - dp) with (open_level 0 init0 + 1 - dp + 1) by lia.
    reflexivity.
Qed.

(** X1. The trees that returning calls build from the empty tree are
    exactly the valid trees of at most [max_size()] nodes. *)
Theorem reachable_iff_valid (t : tree) :
  reachable max_size tree_range t <-> valid_tree t /\ size t <= max_size.
Proof.
  split.
  - apply reachable_valid.
  - intros [Hv Hsz]. destruct (tree_snoc_cases t) as [->|(init & l & ->)].
    + apply reachable_empty.
    + apply valid_snoc_reachable; assumption.
Qed.

(** X27. Every tree that returning calls of [push_root],
    [push_back_drifted], [push_back_child], [push_back_sibling],
    [push_back_level], [pop_back], [insert_first_child],
    [insert_child_tree], [insert_sibling], [erase_leaf] and [erase_subtree]
    build from the empty tree, where each node range given to
    [insert_child_tree] is nested as a tree up to its last drift, has a drift
    sum equal to its node count and, when it is not empty, a leaf as its
    last node; [checkInvariant] of the builder test accepts it. *)
Theorem reachable_invariant (t : tree) :
  reachable max_size tree_range t ->
  drift_sum t = size t
  /\ (forall l, last t = Some l -> is_leaf l = true /\ 0 < drift l)
  /\ checkInvariant t = true.
Proof.
  intros Hr. destruct (reachable_valid t Hr) as [Hv _]. splits.
  - apply valid_tree_sum. exact Hv.
  - intros l Hl. pose proof (valid_tree_last_leaf t l Hv Hl) as Hd.
    split; [|exact Hd]. unfold is_leaf.
    destruct (Z.eqb_spec (drift l) 0); [lia|reflexivity].
  - apply valid_tree_checkInvariant. exact Hv.
Qed.

(** ** The invariant after a caught exception *)

(** C1. The invariant does not hold in every state that calls with their
    preconditions met leave behind. On a valid tree that fills the vector,
    which returning calls build from the empty tree, [push_back_child]
    passes both assertions, stores 0 as the last node's drift and then
    raises [std::length_error] from [emplace_back]. In the tree that a
    caller who catches the exception is left with, the drift sum is below
    the node count, the last node is not a leaf, and [checkInvariant]
    rejects it. [push_root] on the same tree raises too, and leaves the
    tree as it was: it calls the vector before it stores a drift. *)
Theorem push_back_child_length_error (init : tree) (l : node_t) (d : data_t) :
  valid_tree (init ++ [l]) -> size (init ++ [l]) = max_size ->
  max_size < drift_modulus - 1 ->
  reachable max_size tree_range (init ++ [l])
  /\ push_back_child max_size (init ++ [l]) d = LengthError (init ++ [Node 0 (data l)])
  /\ drift_sum (init ++ [Node 0 (data l)]) < size (init ++ [Node 0 (data l)])
  /\ last (init ++ [Node 0 (data l)]) = Some (Node 0 (data l))
  /\ is_leaf (Node 0 (data l)) = false
  /\ checkInvariant (init ++ [Node 0 (data l)]) = false
  /\ push_root max_size (init ++ [l]) d = LengthError (init ++ [l]).
Proof.
  intros Hv Hfull Hmax. pose proof Hv as Hv0.
  apply valid_tree_snoc in Hv as (Hn & Hd & Hz).
  pose proof (well_nested_open_level 0 init ltac:(lia) Hn) as Ho.
  pose proof (size_nonneg init) as Hs.
  assert (Hsz : size (init ++ [l]) = size init + 1).
  { rewrite size_app, size_cons. change (size []) with 0. lia. }
  splits.
  - apply valid_snoc_reachable; [exact Hv0|lia].
  - unfold push_back_child, DRIFT_CHILD. rewrite push_back_drifted_snoc.
    unfold open_level in *.
    rewrite (wrap_small (1 + drift l)) by lia.
    destruct (Z.ltb_spec 0 (1 + drift l)); [|lia].
    destruct (Z.leb_spec max_size (size (init ++ [l]))); [reflexivity|lia].
  - rewrite drift_sum_app, drift_sum_cons, size_app, size_cons. cbn [drift].
    change (drift_sum []) with 0. change (size []) with 0.
    unfold open_level in *. lia.
  - apply last_snoc.
  - reflexivity.
  - unfold checkInvariant. cbn zeta. rewrite last_snoc.
    change (is_leaf (Node 0 (data l))) with false. rewrite orb_false_r.
    rewrite size_app, size_cons. change (size []) with 0.
    destruct (Z.eqb_spec 0 (size init + (1 + 0))); [lia|]. apply andb_false_r.
  - rewrite push_root_snoc.
    destruct (Z.leb_spec max_size (size (init ++ [l]))); [reflexivity|lia].
Qed.

(** ** Further properties: appending *)

(** X2. On a valid tree [push_back_drifted], when it returns, leaves the
    earlier nodes at their levels and puts the new node [back_drift] levels
    above the level of a child of the old last node; the result is valid. *)
Theorem push_back_drifted_level (init : tree) (l : node_t) (d : data_t) (back_drift : Z) t' :
  valid_tree (init ++ [l]) -> 0 <= back_drift < drift_modulus ->
  push_back_drifted max_size (init ++ [l]) d back_drift = Done t' ->
  valid_tree t'
  /\ length t' = S (length (init ++ [l]))
  /\ (forall i, (i <= length init)%nat -> level_of t' i = level_of (init ++ [l]) i)
  /\ level_of t' (length (init ++ [l]))
     = level_of (init ++ [l]) (length init) + 1 - back_drift
  /\ 0 <= level_of t' (length (init ++ [l])).
Proof.
  intros Hv Hb H.
  destruct (push_back_drifted_valid _ _ _ _ Hv Hb H) as [Hv' _].
  rewrite push_back_drifted_snoc in H.
  destruct (back_drift <? wrap (1 + drift l)); [|discriminate].
  destruct (max_size <=? size (init ++ [l])); [discriminate|].
  injection H as <-. splits.
  - exact Hv'.
  - rewrite !length_app. simpl. lia.
  - intros i Hi. rewrite !level_of_app_l by exact Hi. reflexivity.
  - rewrite (level_of_app_l init [l]) by lia. rewrite level_of_length.
    replace (length (init ++ [l])) with (length (init ++ [set_drift back_drift l]))
      by (rewrite !length_app; reflexivity).
    rewrite (cons_middle init _ (set_drift back_drift l)).
    rewrite level_of_app_l by lia. rewrite level_of_length.
    rewrite open_level_app, open_level_cons, open_level_nil. reflexivity.
  - apply level_of_bounds. exact Hv'.
Qed.

(** X3. On a tree whose last node [l] has drift [d], [push_back_level] with
    [level < d] and room for one more node returns the earlier nodes as
    they were, then a node with [l]'s data and the drift [d - level], then
    one new node of drift [1 + level]; on a full vector it raises
    [std::length_error] after the store, and leaves the tree with the last
    node's drift already at [d - level] and no node added; it stops on its
    assertion when the tree is empty or [level >= d]. *)
Theorem push_back_level_spec (init : tree) (l : node_t) (d : data_t) (level : Z) :
  0 <= drift l < drift_modulus -> 0 <= level < drift_modulus ->
  (level < drift l -> size (init ++ [l]) < max_size ->
   push_back_level max_size (init ++ [l]) d level
   = Done (init ++ [Node (drift l - level) (data l); Node (1 + level) d]))
  /\ (level < drift l -> max_size <= size (init ++ [l]) ->
      push_back_level max_size (init ++ [l]) d level
      = LengthError (init ++ [Node (drift l - level) (data l)]))
  /\ (drift l <= level ->
      push_back_level max_size (init ++ [l]) d level = AssertionFailed)
  /\ push_back_level max_size [] d level = AssertionFailed.
Proof.
  intros Hl Hv. splits.
  - intros Hlt Hcap. rewrite push_back_level_snoc.
    destruct (Z.ltb_spec level (drift l)); [|lia].
    destruct (Z.leb_spec max_size (size (init ++ [l]))); [lia|].
    rewrite !wrap_small by lia. reflexivity.
  - intros Hlt Hfull. rewrite push_back_level_snoc.
    destruct (Z.ltb_spec level (drift l)); [|lia].
    destruct (Z.leb_spec max_size (size (init ++ [l]))); [|lia].
    rewrite !wrap_small by lia. reflexivity.
  - intros Hge. rewrite push_back_level_snoc.
    destruct (Z.ltb_spec level (drift l)); [lia|reflexivity].
  - reflexivity.
Qed.

(** X4. On a valid tree [push_back_level], when it returns, puts the new node
    at the level [level] counted from the root (0 is the level of the
    root), leaves the earlier nodes at their levels, and the result is
    valid. *)
Theorem push_back_level_level (init : tree) (l : node_t) (d : data_t) (level : Z) t' :
  valid_tree (init ++ [l]) -> 0 <= level < drift_modulus ->
  push_back_level max_size (init ++ [l]) d level = Done t' ->
  valid_tree t'
  /\ (forall i, (i <= length init)%nat -> level_of t' i = level_of (init ++ [l]) i)
  /\ level_of t' (length (init ++ [l])) = level
  /\ level <= level_of (init ++ [l]) (length init).
Proof.
  intros Hv Hb H.
  destruct (push_back_level_valid _ _ _ _ Hv Hb H) as [Hv' _].
  rewrite push_back_level_snoc in H.
  destruct (Z.ltb_spec level (drift l)) as [Hlt|]; [|discriminate].
  destruct (Z.leb_spec max_size (size (init ++ [l]))) as [|Hcap]; [discriminate|].
  injection H as <-.
  apply valid_tree_snoc in Hv as (Hn & Hd & Hz).
  pose proof (well_nested_open_level 0 init ltac:(lia) Hn) as Ho.
  sizes.
  splits.
  - exact Hv'.
  - intros i Hi. rewrite !level_of_app_l by exact Hi. reflexivity.
  - replace (length (init ++ [l]))
      with (length (init ++ [set_drift (wrap (drift l - level)) l]))
      by (rewrite !length_app; reflexivity).
    rewrite (cons_middle init _ (set_drift (wrap (drift l - level)) l)).
    rewrite level_of_app_l by lia. rewrite level_of_length.
    rewrite open_level_app, open_level_cons, open_level_nil. cbn [drift set_drift].
    rewrite wrap_small by lia. lia.
  - rewrite (level_of_app_l init [l]) by lia. rewrite level_of_length. lia.
Qed.

(** X5. A returning [push_back_level] followed by [pop_back] gives the tree
    back. *)
Theorem pop_back_push_back_level (init : tree) (l : node_t) (d : data_t) (level : Z) :
  0 <= drift l < drift_modulus -> 0 <= level < drift l ->
  size (init ++ [l]) < max_size ->
  exists t', push_back_level max_size (init ++ [l]) d level = Done t'
             /\ pop_back t' = Done (init ++ [l]).
Proof.
  intros Hl Hv Hcap. rewrite push_back_level_snoc.
  destruct (Z.ltb_spec level (drift l)); [|lia].
  destruct (Z.leb_spec max_size (size (init ++ [l]))); [lia|].
  eexists. split; [reflexivity|]. rewrite pop_back_snoc2. cbn [drift set_drift data].
  rewrite (wrap_small (drift l - level)) by lia.
  rewrite (wrap_small (1 + level)) by lia.
  rewrite (wrap_small (1 + level - 1)) by lia.
  replace (drift l - level + (1 + level - 1)) with (drift l) by lia.
  rewrite wrap_small by lia. destruct l; reflexivity.
Qed.

(** ** Further properties: removing at the end *)

(** X6. [pop_back] stops on its assertion on a tree of fewer than two nodes.
    On a valid tree of at least two nodes it removes the last node, adds
    that node's drift minus one to the drift of the node before it, leaves
    a valid tree, and the remaining nodes keep their levels. *)
Theorem pop_back_spec :
  (forall t : tree, (length t <= 1)%nat -> pop_back t = AssertionFailed)
  /\ (forall (init : tree) p l,
        valid_tree (init ++ [p; l]) ->
        pop_back (init ++ [p; l]) = Done (init ++ [set_drift (drift p + drift l - 1) p])
        /\ valid_tree (init ++ [set_drift (drift p + drift l - 1) p])
        /\ forall i, (i <= length init)%nat ->
             level_of (init ++ [set_drift (drift p + drift l - 1) p]) i
             = level_of (init ++ [p; l]) i).
Proof.
  split; [apply pop_back_short|]. intros init p l Hv.
  assert (Hp : pop_back (init ++ [p; l])
               = Done (init ++ [set_drift (drift p + drift l - 1) p])).
  { rewrite pop_back_snoc2. levels.
    rewrite (wrap_small (drift l - 1)) by lia. rewrite wrap_small by lia.
    replace (drift p + (drift l - 1)) with (drift p + drift l - 1) by lia. reflexivity. }
  splits.
  - exact Hp.
  - apply (pop_back_valid _ _ Hv Hp).
  - intros i Hi. rewrite !level_of_app_l by exact Hi. reflexivity.
Qed.

(** X7. [erase_leaf] at the last position of a tree whose last node is a
    leaf does what [pop_back] does, and returns the position it was given. *)
Theorem erase_leaf_last_pop_back (init : tree) (p l : node_t) :
  is_leaf l = true ->
  erase_leaf (init ++ [p; l]) (S (length init))
  = bind (pop_back (init ++ [p; l])) (fun t' => Done (t', S (length init))).
Proof.
  intros Hl. rewrite erase_leaf_middle, pop_back_snoc2, Hl. reflexivity.
Qed.

(** ** Further properties: erase_leaf *)

(** X8. [erase_leaf] stops on its assertion at [end()] and at the position
    of a node that has children; at the first position, when that node is
    a leaf, it reaches for the node before the first one. *)
Theorem erase_leaf_edges :
  (forall t : tree, erase_leaf t (length t) = AssertionFailed)
  /\ (forall (t : tree) i x,
        t !! i = Some x -> is_leaf x = false -> erase_leaf t i = AssertionFailed)
  /\ (forall (x : node_t) (post : tree),
        is_leaf x = true -> erase_leaf (x :: post) 0 = Undefined).
Proof.
  splits.
  - apply erase_leaf_end.
  - intros t i x Hi Hx.
    apply list_elem_of_split_length in Hi as (pre & post & -> & ->).
    destruct (tree_snoc_cases pre) as [->|(pre' & p & ->)].
    + cbn [app length]. rewrite erase_leaf_front, Hx. reflexivity.
    + rewrite <- app_assoc. cbn [app].
      replace (length (pre' ++ [p])) with (S (length pre'))
        by (rewrite length_app; simpl; lia).
      rewrite erase_leaf_middle, Hx. reflexivity.
  - intros x post Hx. rewrite erase_leaf_front, Hx. reflexivity.
Qed.

(** X9. On a valid tree [erase_leaf] at the position of a leaf that is not
    the first node removes that node, adds its drift minus one to the drift
    of the node before it, returns the position it was given, leaves a
    valid tree, and every other node keeps its level. *)
Theorem erase_leaf_spec (pre post : tree) (p x : node_t) :
  valid_tree (pre ++ p :: x :: post) -> is_leaf x = true ->
  let t' := pre ++ set_drift (drift p + drift x - 1) p :: post in
  erase_leaf (pre ++ p :: x :: post) (S (length pre)) = Done (t', S (length pre))
  /\ valid_tree t'
  /\ (forall i, (i <= length pre)%nat ->
        level_of t' i = level_of (pre ++ p :: x :: post) i)
  /\ (forall k, level_of t' (S (length pre) + k)
               = level_of (pre ++ p :: x :: post) (S (S (length pre)) + k)).
Proof.
  intros Hv Hx t'.
  assert (He : erase_leaf (pre ++ p :: x :: post) (S (length pre)) = Done (t', S (length pre))).
  { rewrite erase_leaf_middle, Hx. subst t'. unfold is_leaf in Hx.
    destruct (Z.eqb_spec (drift x) 0) as [|Hne]; [discriminate|]. levels.
    rewrite (wrap_small (drift x - 1)) by lia. rewrite wrap_small by lia.
    replace (drift p + (drift x - 1)) with (drift p + drift x - 1) by lia. reflexivity. }
  splits.
  - exact He.
  - apply (erase_leaf_valid _ _ _ _ Hv He).
  - intros i Hi. subst t'. rewrite !level_of_app_l by exact Hi. reflexivity.
  - intros k. subst t'.
    rewrite (cons_middle pre post), (cons_middle pre (x :: post)).
    rewrite (cons_middle (pre ++ [p]) post x).
    replace (S (length pre) + k)%nat
      with (length (pre ++ [set_drift (drift p + drift x - 1) p]) + k)%nat
      by (rewrite length_app; simpl; lia).
    replace (S (S (length pre)) + k)%nat with (length ((pre ++ [p]) ++ [x]) + k)%nat
      by (rewrite !length_app; simpl; lia).
    rewrite !level_of_app_r. f_equal.
    rewrite !open_level_app, !open_level_cons, !open_level_nil. cbn [drift set_drift]. lia.
Qed.

(** X10. A returning [insert_first_child] followed by [erase_leaf] at the
    returned position gives the tree back. *)
Theorem erase_leaf_insert_first_child (pre post : tree) (x : node_t) (d : data_t) :
  0 <= drift x -> 1 + drift x < drift_modulus ->
  size (pre ++ x :: post) < max_size ->
  exists t' it,
    insert_first_child max_size (pre ++ x :: post) (length pre) d = Done (t', it)
    /\ erase_leaf t' it = Done (pre ++ x :: post, it).
Proof.
  intros Hx Hw Hcap. rewrite insert_first_child_middle.
  destruct (Z.leb_spec max_size (size (pre ++ x :: post))); [lia|].
  eexists _, _. split; [reflexivity|].
  rewrite erase_leaf_middle. unfold is_leaf. cbn [drift set_drift].
  rewrite (wrap_small (1 + drift x)) by lia.
  destruct (Z.eqb_spec (1 + drift x) 0); [lia|]. cbn [negb].
  rewrite (wrap_small (1 + drift x - 1)) by lia.
  replace (0 + (1 + drift x - 1)) with (drift x) by lia.
  rewrite wrap_small by lia. unfold set_drift. cbn [data]. destruct x; reflexivity.
Qed.

(** ** Further properties: insert_sibling *)

(** X11. [insert_sibling] with room for one more node puts a leaf of drift 1
    in front of the node at the position and returns that position; the new
    node is at the level that node has, and every earlier node keeps its
    level. At [end()] it stops on its assertion. *)
Theorem insert_sibling_spec (pre post : tree) (x : node_t) (d : data_t) :
  size (pre ++ x :: post) < max_size ->
  let t := pre ++ x :: post in
  let t' := pre ++ Node 1 d :: x :: post in
  insert_sibling max_size t (length pre) d = Done (t', length pre)
  /\ is_leaf (Node 1 d) = true
  /\ (forall i, (i <= length pre)%nat -> level_of t' i = level_of t i)
  /\ (forall k, level_of t' (S (length pre) + k) = level_of t (length pre + k))
  /\ insert_sibling max_size t (length t) d = AssertionFailed.
Proof.
  intros Hcap t t'. subst t t'. splits.
  - rewrite insert_sibling_middle.
    destruct (Z.leb_spec max_size (size (pre ++ x :: post))); [lia|reflexivity].
  - reflexivity.
  - intros i Hi. rewrite !level_of_app_l by exact Hi. reflexivity.
  - intros k. rewrite (cons_middle pre (x :: post)).
    replace (S (length pre) + k)%nat with (length (pre ++ [Node 1 d]) + k)%nat
      by (rewrite length_app; simpl; lia).
    rewrite !level_of_app_r. f_equal.
    rewrite open_level_app, open_level_cons, open_level_nil. cbn [drift]. lia.
  - apply insert_sibling_end.
Qed.

(** X12. A returning [insert_sibling] behind the first position followed by
    [erase_leaf] at the returned position gives the tree back; after an
    [insert_sibling] at the first position [erase_leaf] there has no node
    before it to take the drift. *)
Theorem erase_leaf_insert_sibling :
  (forall (pre post : tree) (p x : node_t) (d : data_t),
     0 <= drift p < drift_modulus ->
     size (pre ++ p :: x :: post) < max_size ->
     exists t' it,
       insert_sibling max_size (pre ++ p :: x :: post) (S (length pre)) d = Done (t', it)
       /\ erase_leaf t' it = Done (pre ++ p :: x :: post, it))
  /\ (forall (post : tree) (x : node_t) (d : data_t),
        size (x :: post) < max_size ->
        exists t' it,
          insert_sibling max_size (x :: post) 0 d = Done (t', it)
          /\ erase_leaf t' it = Undefined).
Proof.
  split.
  - intros pre post p x d Hp Hcap.
    rewrite (cons_middle pre (x :: post) p) in *.
    replace (S (length pre)) with (length (pre ++ [p]))
      by (rewrite length_app; simpl; lia).
    rewrite insert_sibling_middle.
    destruct (Z.leb_spec max_size (size ((pre ++ [p]) ++ x :: post))); [lia|].
    eexists _, _. split; [reflexivity|].
    rewrite <- !app_assoc. cbn [app].
    replace (length (pre ++ [p])) with (S (length pre))
      by (rewrite length_app; simpl; lia).
    rewrite erase_leaf_middle. cbn [is_leaf drift Z.eqb negb].
    change (wrap (1 - 1)) with 0. rewrite Z.add_0_r, wrap_small by lia.
    rewrite set_drift_same. reflexivity.
  - intros post x d Hcap.
    pose proof (insert_sibling_middle [] post x d) as H. cbn [app length] in H.
    rewrite H. destruct (Z.leb_spec max_size (size (x :: post))); [lia|].
    eexists _, _. split; [reflexivity|]. apply erase_leaf_front.
Qed.

(** ** Further properties: insert_child_tree *)

(** X13. With room for one more node, [insert_child_tree] with a range of
    one node returns what [insert_first_child] returns for that node's
    data, whatever the node's drift, at every position. On a full vector
    both raise [std::length_error], and they leave different trees:
    [insert_child_tree] calls the vector first and leaves the tree as it
    was, [insert_first_child] has already set the drift of the node at [i]
    to 0. *)
Theorem insert_child_tree_singleton (t : tree) (i : nat) (k : Z) (d : data_t) :
  (size t < max_size ->
   insert_child_tree max_size t i [Node k d] = insert_first_child max_size t i d)
  /\ (forall (pre post : tree) (x : node_t),
        t = pre ++ x :: post -> i = length pre -> max_size <= size t ->
        insert_child_tree max_size t i [Node k d] = LengthError t
        /\ insert_first_child max_size t i d
           = LengthError (pre ++ Node 0 (data x) :: post)).
Proof.
  split.
  - intros Hroom.
    destruct (position_cases t i) as [(pre & x & post & -> & ->)|[->|Hout]].
    + pose proof (insert_child_tree_middle pre post [] x (Node k d)) as H.
      cbn [app length] in H. rewrite H. clear H.
      rewrite insert_first_child_middle.
      change (size [Node k d]) with 1. rewrite open_level_nil.
      destruct (Z.ltb_spec (max_size - size (pre ++ x :: post)) 1),
               (Z.leb_spec max_size (size (pre ++ x :: post))); try lia.
      do 2 f_equal. lia.
    + rewrite insert_child_tree_end, insert_first_child_end. reflexivity.
    + rewrite insert_child_tree_outside, insert_first_child_outside by exact Hout.
      reflexivity.
  - intros pre post x -> -> Hfull.
    pose proof (insert_child_tree_middle pre post [] x (Node k d)) as H.
    cbn [app length] in H. rewrite H. clear H.
    rewrite insert_first_child_middle.
    change (size [Node k d]) with 1.
    destruct (Z.ltb_spec (max_size - size (pre ++ x :: post)) 1),
             (Z.leb_spec max_size (size (pre ++ x :: post))); try lia.
    split; reflexivity.
Qed.

(** X14. [insert_child_tree] never reads the drift of the last node of the
    range: two ranges that differ only there give the same result. *)
Theorem insert_child_tree_last_drift (t rinit : tree) (i : nat) (k k' : Z) (d : data_t) :
  insert_child_tree max_size t i (rinit ++ [Node k d])
  = insert_child_tree max_size t i (rinit ++ [Node k' d]).
Proof.
  destruct (position_cases t i) as [(pre & x & post & -> & ->)|[->|Hout]].
  - rewrite !insert_child_tree_middle. rewrite !size_app. reflexivity.
  - rewrite !insert_child_tree_end. reflexivity.
  - rewrite !insert_child_tree_outside by exact Hout. reflexivity.
Qed.

(** X15. On a valid tree with room for the range, [insert_child_tree] of a
    tree range at the position of a leaf returns the position of the last
    inserted node; afterwards the subtree view of the target enumerates the
    inserted nodes, in their order and with their data, and [erase_subtree]
    of that view gives the tree back. *)
Theorem erase_subtree_insert_child_tree (pre post rinit : tree) (x rl : node_t) :
  valid_tree (pre ++ x :: post) -> 0 < drift x ->
  tree_range (rinit ++ [rl]) ->
  size (pre ++ x :: post) + size (rinit ++ [rl]) <= max_size ->
  exists t' last',
    insert_child_tree max_size (pre ++ x :: post) (length pre) (rinit ++ [rl])
    = Done (t', (length pre + length (rinit ++ [rl]))%nat)
    /\ valid_tree t'
    /\ subtree_nodes t' (length pre) = Done (rinit ++ [last'])
    /\ data last' = data rl
    /\ erase_subtree t' (length pre) = Done (pre ++ x :: post, (length pre + 1)%nat).
Proof.
  intros Hv Hx Hr Hcap.
  pose proof (insert_child_tree_middle pre post rinit x rl) as Hi.
  destruct (Z.ltb_spec (max_size - size (pre ++ x :: post)) (size (rinit ++ [rl])));
    [lia|].
  destruct (insert_child_tree_valid _ _ _ _ _ Hv ltac:(pose proof (size_nonneg (rinit ++ [rl])); lia) Hr Hi)
    as [Hv' _].
  destruct Hr as [_ Hn]. rewrite removelast_last in Hn.
  pose proof (well_nested_open_level 0 rinit ltac:(lia) Hn) as Ho.
  assert (Hw : wrap (open_level (1 + drift x) rinit) = 1 + drift x + open_level 0 rinit).
  { rewrite open_level_shift. apply wrap_small. levels. lia. }
  rewrite Hw in *.
  set (last' := set_drift (1 + drift x + open_level 0 rinit) rl) in *.
  assert (Hb : size rinit + 2 < drift_modulus) by (levels; lia).
  exists (pre ++ set_drift 0 x :: rinit ++ last' :: post), last'. splits.
  - rewrite Hi. do 2 f_equal. rewrite length_app. simpl. lia.
  - exact Hv'.
  - apply subtree_nodes_children; try assumption; try reflexivity.
    subst last'. cbn [drift set_drift]. rewrite (open_level_shift 1). lia.
  - reflexivity.
  - rewrite erase_subtree_children; try assumption; try reflexivity.
    + subst last'. cbn [drift set_drift data]. rewrite (open_level_shift 1).
      replace (1 + drift x + open_level 0 rinit - (1 + open_level 0 rinit)) with (drift x) by lia.
      unfold set_drift. cbn [data]. destruct x; reflexivity.
    + subst last'. cbn [drift set_drift]. rewrite (open_level_shift 1). lia.
    + subst last'. cbn [drift set_drift]. levels. lia.
Qed.

(** ** Further properties: the subtree view after a change *)

(** X16. On a valid tree with room for one more node, after
    [insert_first_child] the subtree view of the target enumerates the new
    node, which is a leaf, followed by the nodes it enumerated before. *)
Theorem subtree_nodes_insert_first_child (pre post : tree) (x : node_t) (d : data_t) :
  valid_tree (pre ++ x :: post) -> size (pre ++ x :: post) < max_size ->
  exists t' ns new,
    insert_first_child max_size (pre ++ x :: post) (length pre) d
    = Done (t', S (length pre))
    /\ t' !! S (length pre) = Some new /\ data new = d /\ is_leaf new = true
    /\ subtree_nodes (pre ++ x :: post) (length pre) = Done ns
    /\ subtree_nodes t' (length pre) = Done (new :: ns).
Proof.
  intros Hv Hcap. rewrite insert_first_child_middle.
  destruct (Z.leb_spec max_size (size (pre ++ x :: post))); [lia|].
  assert (Hw : wrap (1 + drift x) = 1 + drift x) by (apply wrap_small; levels; lia).
  rewrite Hw.
  assert (Hlk : (pre ++ set_drift 0 x :: Node (1 + drift x) d :: post) !! S (length pre)
                = Some (Node (1 + drift x) d)).
  { rewrite (cons_middle pre _ (set_drift 0 x)).
    replace (S (length pre)) with (length (pre ++ [set_drift 0 x]))
      by (rewrite length_app; simpl; lia).
    apply list_lookup_middle. reflexivity. }
  assert (Hz : size (pre ++ x :: post) < drift_modulus) by lia.
  destruct (valid_tree_subtree_shape _ _ _ Hv)
    as [[Ha Hr]|(Ha & seg & c & rest & -> & Hn & Hc & Hr & Hb)].
  - exists (pre ++ set_drift 0 x :: Node (1 + drift x) d :: post), [], (Node (1 + drift x) d).
    splits; try reflexivity; try assumption.
    + unfold is_leaf. cbn [drift]. destruct (Z.eqb_spec (1 + drift x) 0); [lia|reflexivity].
    + apply subtree_nodes_leaf. exact Ha.
    + apply (subtree_nodes_children pre [] post (set_drift 0 x) (Node (1 + drift x) d));
        first [ reflexivity | exact I
              | rewrite open_level_nil; cbn [drift]; lia ].
  - exists (pre ++ set_drift 0 x :: Node (1 + drift x) d :: seg ++ c :: rest),
           (seg ++ [c]), (Node (1 + drift x) d).
    splits; try reflexivity; try assumption.
    + unfold is_leaf. cbn [drift]. destruct (Z.eqb_spec (1 + drift x) 0); [lia|reflexivity].
    + apply subtree_nodes_children; assumption.
    + apply (subtree_nodes_children pre (Node (1 + drift x) d :: seg) rest (set_drift 0 x) c);
        first [ reflexivity
              | cbn [well_nested drift]; rewrite Ha; split; [lia|exact Hn]
              | rewrite open_level_cons, open_level_shift; cbn [drift];
                rewrite (open_level_shift 1) in Hc; lia
              | pose proof (size_nonneg pre); pose proof (size_nonneg rest); sizes; lia ].
Qed.

(** X17. On a valid tree a returning [erase_subtree] leaves the anchor as a
    leaf: its subtree view enumerates nothing, and a second [erase_subtree]
    at the same position changes nothing. *)
Theorem erase_subtree_idempotent (t : tree) (p : nat) t' it :
  valid_tree t -> erase_subtree t p = Done (t', it) ->
  it = (p + 1)%nat
  /\ (exists a', t' !! p = Some a' /\ is_leaf a' = true)
  /\ subtree_nodes t' p = Done []
  /\ erase_subtree t' p = Done (t', it).
Proof.
  intros Hv He.
  destruct (position_cases t p) as [(pre & a & post & -> & ->)|Hout];
    [|rewrite erase_subtree_outside in He by lia; discriminate].
  destruct (valid_tree_subtree_shape _ _ _ Hv)
    as [[Ha Hr]|(Ha & seg & x & rest & -> & Hn & Hx & Hr & Hb)].
  - rewrite erase_subtree_leaf in He by assumption. injection He as <- <-.
    splits.
    + reflexivity.
    + exists a. split; [apply list_lookup_middle; reflexivity|].
      unfold is_leaf. destruct (Z.eqb_spec (drift a) 0); [contradiction|reflexivity].
    + apply subtree_nodes_leaf. exact Ha.
    + apply erase_subtree_leaf; assumption.
  - rewrite erase_subtree_children in He by assumption. injection He as <- <-.
    pose proof (well_nested_open_level 0 seg ltac:(lia) Hn) as Ho.
    rewrite (open_level_shift 1) in *.
    set (a' := set_drift (drift x - (1 + open_level 0 seg)) a).
    assert (Hd : drift a' <> 0) by (subst a'; cbn [drift set_drift]; lia).
    splits.
    + reflexivity.
    + exists a'. split; [apply list_lookup_middle; reflexivity|].
      unfold is_leaf. destruct (Z.eqb_spec (drift a') 0); [contradiction|reflexivity].
    + apply subtree_nodes_leaf. exact Hd.
    + apply erase_subtree_leaf; [exact Hd|]. subst a'. cbn [drift set_drift]. lia.
Qed.

(** X18. On a valid tree [erase_subtree] removes as many nodes as
    [std::distance] counts in the subtree view of the anchor, and keeps the
    data of the other nodes in their order. *)
Theorem erase_subtree_distance (pre post : tree) (a : node_t) :
  valid_tree (pre ++ a :: post) ->
  exists k t',
    subtree_distance (pre ++ a :: post) (length pre) = Done k
    /\ erase_subtree (pre ++ a :: post) (length pre) = Done (t', (length pre + 1)%nat)
    /\ size t' = size (pre ++ a :: post) - k
    /\ map data t' = map data pre ++ data a :: map data (drop (Z.to_nat k) post).
Proof.
  intros Hv.
  destruct (erase_subtree_removes_descendants pre post a Hv)
    as (removed & rest & a' & -> & He & Hs & _ & Hd & _).
  exists (size removed), (pre ++ a' :: rest). splits.
  - unfold subtree_distance. rewrite Hs. reflexivity.
  - exact He.
  - sizes. lia.
  - unfold size. rewrite Nat2Z.id, drop_app_length, map_app. cbn [map]. rewrite Hd.
    reflexivity.
Qed.

(** ** Further properties: push_root *)

(** X19. On a valid tree with room for one more node, [push_root] puts the
    new node at level 0 and every earlier node one level deeper. *)
Theorem push_root_levels (t : tree) (v : data_t) :
  valid_tree t -> size t < max_size ->
  exists t',
    push_root max_size t v = Done t'
    /\ valid_tree t'
    /\ level_of t' 0 = 0
    /\ forall i, (i < length t)%nat -> level_of t' (S i) = level_of t i + 1.
Proof.
  intros Hv Hcap.
  assert (Hp : exists t', push_root max_size t v = Done t'
                 /\ forall i, (i < length t)%nat -> take (S i) t' = Node 0 v :: take i t).
  { destruct (tree_snoc_cases t) as [->|(init & l & ->)].
    - rewrite push_root_nil. change (size []) with 0 in Hcap.
      destruct (Z.leb_spec max_size 0); [lia|].
      eexists. split; [reflexivity|]. intros i Hi. simpl in Hi. lia.
    - rewrite push_root_snoc.
      destruct (Z.leb_spec max_size (size (init ++ [l]))); [lia|].
      eexists. split; [reflexivity|]. intros i Hi.
      rewrite length_app in Hi. simpl in Hi.
      cbn [take]. rewrite !take_app_le by lia. reflexivity. }
  destruct Hp as (t' & Hp & Htake).
  exists t'. splits.
  - exact Hp.
  - apply (push_root_valid _ _ _ Hv Hp).
  - reflexivity.
  - intros i Hi. unfold level_of. rewrite (Htake i Hi).
    rewrite open_level_cons. cbn [drift]. rewrite (open_level_shift (0 + 1 - 0)). lia.
Qed.

(** X20. On a valid tree with room for one more node, [push_root] followed
    by [erase_subtree] of the new root leaves the new root alone, as a
    leaf of drift 1. *)
Theorem erase_subtree_push_root (t : tree) (v : data_t) :
  valid_tree t -> size t < max_size ->
  exists t',
    push_root max_size t v = Done t'
    /\ erase_subtree t' 0 = Done ([Node 1 v], 1%nat).
Proof.
  intros Hv Hcap. destruct (tree_snoc_cases t) as [->|(init & l & ->)].
  - rewrite push_root_nil. change (size []) with 0 in Hcap.
    destruct (Z.leb_spec max_size 0); [lia|]. eexists. split; reflexivity.
  - rewrite push_root_snoc.
    destruct (Z.leb_spec max_size (size (init ++ [l]))); [lia|].
    eexists. split; [reflexivity|].
    apply valid_tree_snoc in Hv as (Hn & Hd & Hz).
    pose proof (well_nested_open_level 0 init ltac:(lia) Hn) as Ho.
    sizes. rewrite wrap_small by lia.
    pose proof (erase_subtree_children [] init [] (Node 0 v)
                  (set_drift (drift l + 1) l)) as He.
    cbn [app length drift set_drift] in He. rewrite (open_level_shift 1) in He.
    rewrite He; try assumption; try reflexivity; try lia.
    do 3 f_equal. unfold set_drift. cbn [data]. f_equal. lia.
Qed.

(** ** Further properties: iterator equality *)

(** X21. [operator==] of the subtree iterator is an equivalence: reflexive,
    symmetric and transitive. *)
Theorem iterator_eqb_equivalence :
  (forall a, iterator_eqb a a = true)
  /\ (forall a b, iterator_eqb a b = iterator_eqb b a)
  /\ (forall a b c, iterator_eqb a b = true -> iterator_eqb b c = true ->
                   iterator_eqb a c = true).
Proof.
  splits.
  - intros a. unfold iterator_eqb. destruct (is_end a); cbn [orb].
    + apply Z.eqb_refl.
    + apply cursor_eqb_eq. reflexivity.
  - intros a b. unfold iterator_eqb. rewrite (orb_comm (is_end a)).
    destruct (is_end b || is_end a).
    + apply Z.eqb_sym.
    + destruct (cursor_eqb (it_m a) (it_m b)) eqn:E.
      * apply cursor_eqb_eq in E. symmetry. apply cursor_eqb_eq. congruence.
      * destruct (cursor_eqb (it_m b) (it_m a)) eqn:E'; [|reflexivity].
        apply cursor_eqb_eq in E'. symmetry in E'. apply cursor_eqb_eq in E'. congruence.
  - intros a b c. unfold iterator_eqb, is_end.
    destruct (Z.eqb_spec (level_m a) 0) as [Ha|Ha], (Z.eqb_spec (level_m b) 0) as [Hb|Hb],
             (Z.eqb_spec (level_m c) 0) as [Hc|Hc]; cbn [orb];
      rewrite ?Z.eqb_eq, ?cursor_eqb_eq; congruence.
Qed.

(** ** Further properties: children through the subtree view *)

(** X22. On a valid tree a returning [push_back_child] makes the new node
    the only node in the subtree view of the old last node, and a returning
    [push_back_sibling] leaves that view empty. *)
Theorem subtree_nodes_push_back (init : tree) (l : node_t) (d : data_t) :
  valid_tree (init ++ [l]) ->
  (forall t', push_back_child max_size (init ++ [l]) d = Done t' ->
     exists new, t' = init ++ [set_drift 0 l; new] /\ data new = d
                 /\ subtree_nodes t' (length init) = Done [new])
  /\ (forall t', push_back_sibling max_size (init ++ [l]) d = Done t' ->
        exists new, t' = init ++ [set_drift 1 l; new] /\ data new = d
                    /\ subtree_nodes t' (length init) = Done []).
Proof.
  intros Hv. apply valid_tree_snoc in Hv as (Hn & Hd & Hz).
  pose proof (well_nested_open_level 0 init ltac:(lia) Hn) as Ho.
  unfold push_back_child, push_back_sibling, DRIFT_CHILD, DRIFT_SIBLING.
  split; intros t' H; rewrite push_back_drifted_snoc in H;
    destruct (_ <? wrap (1 + drift l)); try discriminate;
    destruct (Z.leb_spec max_size (size (init ++ [l]))) as [|Hcap]; try discriminate;
    injection H as <-; sizes;
    eexists; (split; [reflexivity|]); (split; [reflexivity|]).
  - rewrite (wrap_small (1 + drift l)) by lia. rewrite Z.sub_0_r, wrap_small by lia.
    apply (subtree_nodes_children init [] [] (set_drift 0 l) (Node (1 + drift l) d));
      first [ reflexivity | exact I | rewrite open_level_nil; cbn [drift]; lia ].
  - apply (subtree_nodes_leaf init [_] (set_drift 1 l)). cbn [drift set_drift]. lia.
Qed.

(** X23. On a valid tree with room for the range, after [insert_child_tree]
    of a non-empty tree range the subtree view of the target enumerates the
    inserted nodes, in their order and with their data, followed by the
    nodes it enumerated before. *)
Theorem subtree_nodes_insert_child_tree (pre post rinit : tree) (x rl : node_t) :
  valid_tree (pre ++ x :: post) -> tree_range (rinit ++ [rl]) ->
  size (pre ++ x :: post) + size (rinit ++ [rl]) <= max_size ->
  exists t' it last' ns,
    insert_child_tree max_size (pre ++ x :: post) (length pre) (rinit ++ [rl])
    = Done (t', it)
    /\ data last' = data rl
    /\ subtree_nodes (pre ++ x :: post) (length pre) = Done ns
    /\ subtree_nodes t' (length pre) = Done (rinit ++ [last'] ++ ns).
Proof.
  intros Hv Hr Hcap.
  rewrite insert_child_tree_middle.
  destruct (Z.ltb_spec (max_size - size (pre ++ x :: post)) (size (rinit ++ [rl])));
    [lia|].
  destruct Hr as [_ Hn]. rewrite removelast_last in Hn.
  pose proof (well_nested_open_level 0 rinit ltac:(lia) Hn) as Ho.
  pose proof (size_nonneg pre). pose proof (size_nonneg post).
  assert (Hw : wrap (open_level (1 + drift x) rinit) = 1 + drift x + open_level 0 rinit).
  { rewrite open_level_shift. apply wrap_small. levels. lia. }
  rewrite Hw.
  set (last' := set_drift (1 + drift x + open_level 0 rinit) rl).
  destruct (valid_tree_subtree_shape _ _ _ Hv)
    as [[Ha Hx]|(Ha & seg & c & rest & -> & Hs & Hc & Hcr & Hb)].
  - exists (pre ++ set_drift 0 x :: rinit ++ last' :: post), (length pre + 1 + length rinit)%nat,
           last', [].
    splits; try reflexivity.
    + apply subtree_nodes_leaf. exact Ha.
    + rewrite app_nil_r.
      apply subtree_nodes_children; try assumption; try reflexivity.
      * subst last'. cbn [drift set_drift]. rewrite (open_level_shift 1). lia.
      * sizes. lia.
  - exists (pre ++ set_drift 0 x :: rinit ++ last' :: seg ++ c :: rest),
           (length pre + 1 + length rinit)%nat, last', (seg ++ [c]).
    pose proof (well_nested_open_level 0 seg ltac:(lia) Hs) as Hos.
    pose proof (size_nonneg rest).
    splits; try reflexivity.
    + apply subtree_nodes_children; assumption.
    + replace (pre ++ set_drift 0 x :: rinit ++ last' :: seg ++ c :: rest)
        with (pre ++ set_drift 0 x :: (rinit ++ [last'] ++ seg) ++ c :: rest)
        by (rewrite <- !app_assoc; reflexivity).
      replace (rinit ++ [last'] ++ seg ++ [c]) with ((rinit ++ [last'] ++ seg) ++ [c])
        by (rewrite <- !app_assoc; reflexivity).
      apply subtree_nodes_children; try reflexivity.
      * rewrite !well_nested_app. cbn [well_nested]. subst last'. cbn [drift set_drift].
        rewrite Ha. splits; try lia; try assumption.
        rewrite open_level_cons, open_level_nil. cbn [drift set_drift].
        eapply well_nested_mono; [|exact Hs]. lia.
      * rewrite !open_level_app, open_level_cons, open_level_nil.
        subst last'. cbn [drift set_drift]. rewrite Ha.
        rewrite (open_level_shift 1) in Hc.
        rewrite (open_level_shift (_ - _)), (open_level_shift 1). lia.
      * sizes. lia.
Qed.

(** ** Further properties: the levels of the other nodes *)

(** X24. On a valid tree a returning [insert_first_child] puts the new node
    one level below the target and leaves every other node at its level. *)
Theorem insert_first_child_levels (pre post : tree) (x : node_t) (d : data_t) t' it :
  valid_tree (pre ++ x :: post) ->
  insert_first_child max_size (pre ++ x :: post) (length pre) d = Done (t', it) ->
  it = S (length pre)
  /\ (forall i, (i <= length pre)%nat -> level_of t' i = level_of (pre ++ x :: post) i)
  /\ level_of t' (S (length pre)) = level_of (pre ++ x :: post) (length pre) + 1
  /\ (forall k, level_of t' (S (S (length pre)) + k)
               = level_of (pre ++ x :: post) (S (length pre) + k)).
Proof.
  intros Hv H. rewrite insert_first_child_middle in H.
  destruct (Z.leb_spec max_size (size (pre ++ x :: post))) as [|Hcap]; [discriminate|].
  injection H as <- <-.
  assert (Hw : wrap (1 + drift x) = 1 + drift x) by (apply wrap_small; levels; lia).
  rewrite Hw. splits.
  - reflexivity.
  - intros i Hi. rewrite !level_of_app_l by exact Hi. reflexivity.
  - rewrite (cons_middle pre _ (set_drift 0 x)).
    replace (S (length pre)) with (length (pre ++ [set_drift 0 x]))
      by (rewrite length_app; simpl; lia).
    rewrite (level_of_app_l (pre ++ [set_drift 0 x])) by lia.
    rewrite level_of_length, level_of_anchor.
    rewrite open_level_app, open_level_cons, open_level_nil. cbn [drift set_drift]. lia.
  - intros k.
    rewrite (cons_middle pre _ (set_drift 0 x)).
    rewrite (cons_middle (pre ++ [set_drift 0 x]) post).
    rewrite (cons_middle pre post x).
    replace (S (S (length pre)) + k)%nat
      with (length ((pre ++ [set_drift 0 x]) ++ [Node (1 + drift x) d]) + k)%nat
      by (rewrite !length_app; simpl; lia).
    replace (S (length pre) + k)%nat with (length (pre ++ [x]) + k)%nat
      by (rewrite length_app; simpl; lia).
    rewrite !level_of_app_r. f_equal.
    rewrite !open_level_app, !open_level_cons, !open_level_nil. cbn [drift set_drift]. lia.
Qed.

(** X25. On a valid tree a returning [erase_subtree] leaves every node that
    it keeps at its level. *)
Theorem erase_subtree_levels (pre post : tree) (a : node_t) t' it :
  valid_tree (pre ++ a :: post) ->
  erase_subtree (pre ++ a :: post) (length pre) = Done (t', it) ->
  (length t' <= length (pre ++ a :: post))%nat
  /\ (forall i, (i <= length pre)%nat -> level_of t' i = level_of (pre ++ a :: post) i)
  /\ (forall k, level_of t' (length pre + 1 + k)
               = level_of (pre ++ a :: post)
                   (length pre + 1 + (length (pre ++ a :: post) - length t') + k)).
Proof.
  intros Hv He.
  destruct (valid_tree_subtree_shape _ _ _ Hv)
    as [[Ha Hr]|(Ha & seg & x & rest & -> & Hn & Hx & Hr & Hb)].
  - rewrite erase_subtree_leaf in He by assumption. injection He as <- <-.
    splits; [lia|reflexivity|]. intros k. f_equal. lia.
  - rewrite erase_subtree_children in He by assumption. injection He as <- <-.
    set (a' := set_drift (drift x - open_level 1 seg) a).
    assert (Hlen : (length (pre ++ a :: seg ++ x :: rest) - length (pre ++ a' :: rest)
                    = length seg + 1)%nat).
    { rewrite !length_app. simpl length. rewrite length_app. simpl length. lia. }
    splits.
    + rewrite !length_app. simpl length. rewrite length_app. simpl length. lia.
    + intros i Hi. rewrite !level_of_app_l by exact Hi. reflexivity.
    + intros k. rewrite Hlen.
      rewrite (cons_middle pre rest a').
      replace (pre ++ a :: seg ++ x :: rest) with (((pre ++ [a]) ++ seg ++ [x]) ++ rest)
        by (rewrite <- !app_assoc; reflexivity).
      replace (length pre + 1 + k)%nat with (length (pre ++ [a']) + k)%nat
        by (rewrite length_app; simpl; lia).
      replace (length pre + 1 + (length seg + 1) + k)%nat
        with (length ((pre ++ [a]) ++ seg ++ [x]) + k)%nat
        by (rewrite !length_app; simpl; lia).
      rewrite !level_of_app_r. f_equal.
      rewrite !open_level_app, !open_level_cons, !open_level_nil.
      subst a'. cbn [drift set_drift]. rewrite Ha.
      rewrite (open_level_shift 1), (open_level_shift (_ - 0)). lia.
Qed.

(** X26. On a valid tree a returning [insert_child_tree] of a non-empty tree
    range puts the inserted nodes below the target, each as deep below a
    child of the target as it was in the range, and leaves every other node
    at its level. *)
Theorem insert_child_tree_levels (pre post rinit : tree) (x rl : node_t) t' it :
  valid_tree (pre ++ x :: post) -> tree_range (rinit ++ [rl]) ->
  insert_child_tree max_size (pre ++ x :: post) (length pre) (rinit ++ [rl])
  = Done (t', it) ->
  (forall i, (i <= length pre)%nat -> level_of t' i = level_of (pre ++ x :: post) i)
  /\ (forall k, (k <= length rinit)%nat ->
        level_of t' (length pre + 1 + k)
        = level_of (pre ++ x :: post) (length pre) + 1 + level_of (rinit ++ [rl]) k)
  /\ (forall k, level_of t' (length pre + 1 + length (rinit ++ [rl]) + k)
               = level_of (pre ++ x :: post) (length pre + 1 + k)).
Proof.
  intros Hv [_ Hn] H. rewrite removelast_last in Hn.
  rewrite insert_child_tree_middle in H.
  destruct (Z.ltb_spec (max_size - size (pre ++ x :: post)) (size (rinit ++ [rl])))
    as [|Hcap]; [discriminate|].
  injection H as <- <-.
  pose proof (well_nested_open_level 0 rinit ltac:(lia) Hn) as Ho.
  pose proof (size_nonneg pre). pose proof (size_nonneg post).
  assert (Hw : wrap (open_level (1 + drift x) rinit) = 1 + drift x + open_level 0 rinit).
  { rewrite open_level_shift. apply wrap_small. levels. lia. }
  rewrite Hw.
  set (last' := set_drift (1 + drift x + open_level 0 rinit) rl).
  splits.
  - intros i Hi. rewrite !level_of_app_l by exact Hi. reflexivity.
  - intros k Hk. rewrite level_of_anchor.
    rewrite (cons_middle pre _ (set_drift 0 x)).
    replace (length pre + 1 + k)%nat with (length (pre ++ [set_drift 0 x]) + k)%nat
      by (rewrite length_app; simpl; lia).
    rewrite level_of_app_r, take_app_le by exact Hk.
    rewrite (level_of_app_l rinit [rl]) by exact Hk. unfold level_of at 1.
    rewrite open_level_app, open_level_cons, open_level_nil. cbn [drift set_drift]. lia.
  - intros k.
    replace (pre ++ set_drift 0 x :: rinit ++ last' :: post)
      with (((pre ++ [set_drift 0 x]) ++ rinit ++ [last']) ++ post)
      by (rewrite <- !app_assoc; reflexivity).
    rewrite (cons_middle pre post x).
    replace (length pre + 1 + length (rinit ++ [rl]) + k)%nat
      with (length ((pre ++ [set_drift 0 x]) ++ rinit ++ [last']) + k)%nat
      by (rewrite !length_app; simpl; lia).
    replace (length pre + 1 + k)%nat with (length (pre ++ [x]) + k)%nat
      by (rewrite length_app; simpl; lia).
    rewrite !level_of_app_r. f_equal.
    rewrite !open_level_app, !open_level_cons, !open_level_nil.
    subst last'. cbn [drift set_drift].
    rewrite (open_level_shift (_ - 0)). lia.
Qed.

End Properties.

(** ** Capacity only matters through the comparison with the size *)

Lemma push_root_fits {data_t} (m : Z) (t : list (drift_node data_t)) v :
  size t < m -> push_root m t v = push_root (size t + 1) t v.
Proof.
  intros H. unfold push_root, vec_emplace. cbn [Nat.ltb Nat.leb].
  destruct (Z.leb_spec m (size t)); [lia|].
  destruct (Z.leb_spec (size t + 1) (size t)); [lia|reflexivity].
Qed.

Lemma push_back_drifted_fits {data_t} (m : Z) (t : list (drift_node data_t)) d back_drift :
  size t < m ->
  push_back_drifted m t d back_drift = push_back_drifted (size t + 1) t d back_drift.
Proof.
  intros H. destruct (tree_snoc_cases t) as [->|(init & l & ->)]; [reflexivity|].
  rewrite !push_back_drifted_snoc. destruct (back_drift <? _); [|reflexivity].
  destruct (Z.leb_spec m (size (init ++ [l]))); [lia|].
  destruct (Z.leb_spec (size (init ++ [l]) + 1) (size (init ++ [l]))); [lia|reflexivity].
Qed.

Lemma push_back_level_fits {data_t} (m : Z) (t : list (drift_node data_t)) d level :
  size t < m ->
  push_back_level m t d level = push_back_level (size t + 1) t d level.
Proof.
  intros H. destruct (tree_snoc_cases t) as [->|(init & l & ->)]; [reflexivity|].
  rewrite !push_back_level_snoc. destruct (level <? _); [|reflexivity].
  destruct (Z.leb_spec m (size (init ++ [l]))); [lia|].
  destruct (Z.leb_spec (size (init ++ [l]) + 1) (size (init ++ [l]))); [lia|reflexivity].
Qed.

Ltac fits := unfold size; cbn [length]; lia.

Ltac valid_by_computation := apply (bool_decide_unpack _); vm_compute; exact I.

Ltac run_call :=
  match goal with
  | |- context [bind ?m _] =>
      let v := eval vm_compute in m in change m with v; cbn [bind]
  end.

Lemma scenario1_builds (max_size : Z) :
  6 <= max_size -> scenario1 max_size = Done scenario1_tree.
Proof.
  intros H. unfold scenario1, push_back_child, push_back_sibling.
  rewrite push_root_fits by fits. run_call.
  rewrite push_back_drifted_fits by fits. run_call.
  rewrite push_back_drifted_fits by fits. run_call.
  rewrite push_back_drifted_fits by fits. run_call.
  rewrite push_back_level_fits by fits. run_call.
  rewrite push_back_drifted_fits by fits. reflexivity.
Qed.

(** ** The scenarios *)

(** C5. With room for six nodes, [push_root(1)], [push_back_child(2)],
    [push_back_child(3)], [push_back_sibling(4)], [push_back_level(5, 1)],
    [push_back_child(6)] build, from the empty tree, six nodes of which
    those with data 1, 2 and 5 have children and those with data 3, 4 and 6
    are leaves, and whose data sum is 21. On that tree the subtree view of
    node 2 enumerates the two nodes 3 and 4, the view of the root
    enumerates five nodes, and the view of a leaf enumerates none. *)
Theorem scenario1_spec (max_size : Z) :
  6 <= max_size ->
  scenario1 max_size = Done scenario1_tree
  /\ size scenario1_tree = 6
  /\ map (fun n => (data n, has_children n, is_leaf n)) scenario1_tree
     = [(1, true, false); (2, true, false); (3, false, true);
        (4, false, true); (5, true, false); (6, false, true)]
  /\ data_sum scenario1_tree = 21
  /\ subtree_nodes scenario1_tree 1 = Done [Node 1 3; Node 2 4]
  /\ subtree_distance scenario1_tree 1 = Done 2
  /\ subtree_distance scenario1_tree 0 = Done 5
  /\ (forall p n, scenario1_tree !! p = Some n -> is_leaf n = true ->
        subtree_distance scenario1_tree p = Done 0).
Proof.
  intros H. split; [apply scenario1_builds; exact H|].
  repeat (split; [reflexivity|]).
  intros p n Hp Hn.
  do 6 (destruct p as [|p]; [injection Hp as <-; first [discriminate Hn|reflexivity]|]).
  discriminate Hp.
Qed.

Lemma scenario1_spec_witness :
  6 <= max_size_example
  /\ scenario1 max_size_example = Done scenario1_tree
  /\ subtree_distance scenario1_tree 0 = Done 5.
Proof.
  split; [unfold max_size_example; lia|].
  pose proof (scenario1_spec max_size_example ltac:(unfold max_size_example; lia)) as H.
  split; [apply H|apply H].
Defined.

(** C4 (as amended). On a valid tree [erase_subtree] at the position [p] of
    a node removes the nodes that the subtree view of [p] enumerates, which
    are the descendants of [p], and keeps the anchor; the anchor keeps its
    drift when nothing is removed, and otherwise gets the drift of the last
    removed node minus that node's depth below the anchor. Applied to the
    tree of scenario 1 at the node with data 5 it removes only the node with
    data 6, leaves the node with data 5 as a leaf, and leaves five nodes. *)
Theorem erase_subtree_spec :
  (forall (data_t : Type) (pre post : list (drift_node data_t)) (a : drift_node data_t),
     valid_tree (pre ++ a :: post) ->
     exists removed rest a',
       post = removed ++ rest
       /\ erase_subtree (pre ++ a :: post) (length pre)
          = Done (pre ++ a' :: rest, (length pre + 1)%nat)
       /\ subtree_nodes (pre ++ a :: post) (length pre) = Done removed
       /\ (forall j, descendant (pre ++ a :: post) (length pre) j
                     <-> (length pre < j <= length pre + length removed)%nat)
       /\ data a' = data a
       /\ (removed = [] -> a' = a)
       /\ (forall l, last removed = Some l ->
             drift a' = drift l
                        - (level_of (pre ++ a :: post) (length pre + length removed)
                           - level_of (pre ++ a :: post) (length pre))))
  /\ (exists t',
        erase_subtree scenario1_tree 4 = Done (t', 5%nat)
        /\ map data t' = [1; 2; 3; 4; 5]
        /\ t' !! 4%nat = Some (Node 2 5)
        /\ is_leaf (Node 2 5) = true
        /\ size t' = 5).
Proof.
  split.
  - intros data_t pre post a Hv. apply erase_subtree_removes_descendants. exact Hv.
  - eexists. split; [reflexivity|]. repeat split.
Qed.

Lemma erase_subtree_spec_witness :
  valid_tree ([Node 0 1; Node 0 2] ++ Node 0 3 :: [Node 3 4; Node 2 5])
  /\ exists removed rest a',
       erase_subtree ([Node 0 1; Node 0 2] ++ Node 0 3 :: [Node 3 4; Node 2 5]) 2
       = Done ([Node 0 1; Node 0 2] ++ a' :: rest, 3%nat)
       /\ removed = [Node 3 4] /\ drift a' = 2.
Proof.
  assert (Hv : valid_tree ([Node 0 1; Node 0 2] ++ Node 0 3 :: [Node 3 4; Node 2 5])).
  { valid_by_computation. }
  split; [exact Hv|].
  destruct (proj1 erase_subtree_spec Z [Node 0 1; Node 0 2] [Node 3 4; Node 2 5] (Node 0 3) Hv)
    as (removed & rest & a' & Hp & He & Hs & _ & _ & _ & Hd).
  exists removed, rest, a'.
  assert (Hr : removed = [Node 3 4]) by (vm_compute in Hs; congruence).
  split; [exact He|]. split; [exact Hr|].
  subst removed. rewrite (Hd (Node 3 4) eq_refl). reflexivity.
Defined.

(** C4, as stated: five nodes are left, not four. *)
Lemma erase_subtree_scenario_counterexample :
  ~ (forall t' it, erase_subtree scenario1_tree 4 = Done (t', it) -> size t' = 4).
Proof.
  intros H. specialize (H _ _ eq_refl). vm_compute in H. discriminate H.
Qed.

(** ** Instances *)

Ltac compute_Z := repeat split; vm_compute; first [reflexivity | intros; discriminate].

Lemma max_size_example_nonneg : 0 <= max_size_example.
Proof. compute_Z. Qed.

Lemma max_size_example_representable : max_size_example < drift_modulus.
Proof. compute_Z. Qed.

Lemma push_back_child_length_error_witness :
  valid_tree ([Node 0 1; Node 0 2; Node 1 3; Node 2 4; Node 0 5] ++ [Node 3 6])
  /\ size ([Node 0 1; Node 0 2; Node 1 3; Node 2 4; Node 0 5] ++ [Node 3 6]) = 6
  /\ 6 < drift_modulus - 1
  /\ scenario1 6 = Done scenario1_tree
  /\ push_back_child 6 scenario1_tree 7
     = LengthError [Node 0 1; Node 0 2; Node 1 3; Node 2 4; Node 0 5; Node 0 6]
  /\ drift_sum [Node 0 1; Node 0 2; Node 1 3; Node 2 4; Node 0 5; Node 0 6] = 3
  /\ checkInvariant [Node 0 1; Node 0 2; Node 1 3; Node 2 4; Node 0 5; Node 0 6] = false
  /\ push_root 6 scenario1_tree 7 = LengthError scenario1_tree.
Proof.
  assert (Hv : valid_tree ([Node 0 1; Node 0 2; Node 1 3; Node 2 4; Node 0 5] ++ [Node 3 6]))
    by valid_by_computation.
  assert (Hf : size ([Node 0 1; Node 0 2; Node 1 3; Node 2 4; Node 0 5] ++ [Node 3 6]) = 6)
    by reflexivity.
  assert (Hm : 6 < drift_modulus - 1) by compute_Z.
  repeat (split; [assumption|]).
  split; [apply scenario1_builds; lia|].
  destruct (push_back_child_length_error 6
              [Node 0 1; Node 0 2; Node 1 3; Node 2 4; Node 0 5] (Node 3 6) 7 Hv Hf Hm)
    as (_ & Hc & _ & _ & _ & Hi & Hp).
  split; [exact Hc|]. split; [reflexivity|]. split; [exact Hi|exact Hp].
Defined.

Lemma push_back_drifted_spec_witness :
  0 <= drift (Node 2 2) < drift_modulus /\ 0 <= 1 < drift_modulus
  /\ 1 < wrap (1 + drift (Node 2 2))
  /\ size ([Node 0 1] ++ [Node 2 2]) < max_size_example
  /\ push_back_drifted max_size_example [Node 0 1; Node 2 2] 3 1
     = Done [Node 0 1; Node 1 2; Node 2 3].
Proof.
  assert (H1 : 0 <= drift (Node 2 2) < drift_modulus) by compute_Z.
  assert (H2 : 0 <= 1 < drift_modulus) by compute_Z.
  assert (H3 : 1 < wrap (1 + drift (Node 2 2))) by compute_Z.
  assert (H4 : size ([Node 0 1] ++ [Node 2 2]) < max_size_example) by compute_Z.
  repeat (split; [assumption|]).
  exact (proj1 (push_back_drifted_spec max_size_example [Node 0 1] (Node 2 2) 3 1 H1 H2) H3 H4).
Defined.

Lemma subtree_iterator_steps_witness :
  valid_tree scenario1_tree /\ (1 < length scenario1_tree)%nat
  /\ subtree_begin scenario1_tree 1 = Done {| it_m := Some 2%nat; level_m := 1 |}
  /\ exists it', iterator_incr scenario1_tree {| it_m := Some 2%nat; level_m := 1 |} = Done it'
                 /\ level_m it' = 1 /\ it_m it' = Some 3%nat.
Proof.
  assert (Hv : valid_tree scenario1_tree) by valid_by_computation.
  assert (Hp : (1 < length scenario1_tree)%nat) by (cbn; lia).
  repeat (split; [assumption|]).
  destruct (subtree_iterator_steps scenario1_tree 1 Hv Hp) as [(n & Hn & Hb) Hstep].
  injection Hn as <-. split; [exact Hb|].
  destruct (Hstep _ (visiting_begin _ _ _ Hb)) as (c & Hc & _ & Hincr).
  injection Hc as <-.
  destruct (Hincr (Node 1 3) eq_refl) as (it' & Hi & _ & Hopen & _).
  exists it'. split; [exact Hi|]. apply Hopen. compute_Z.
Defined.

Lemma push_root_spec_witness :
  valid_tree [Node 1 2] /\ size [Node 1 2] < max_size_example
  /\ exists t', push_root max_size_example [Node 1 2] 1 = Done t'
                /\ subtree_nodes t' 0 = Done (tail t').
Proof.
  assert (Hv : valid_tree [Node 1 2]) by valid_by_computation.
  assert (Hc : size [Node 1 2] < max_size_example) by compute_Z.
  repeat (split; [assumption|]).
  destruct (push_root_spec max_size_example max_size_example_representable
              [Node 1 2] 1 Hv Hc) as (t' & Hp & _ & _ & _ & Hs & _).
  exists t'. split; assumption.
Defined.

(** C6, as stated: the first node that [push_root] establishes has drift 1,
    not 0. *)
Lemma push_root_empty_counterexample :
  ~ (forall t', push_root max_size_example [] 1 = Done t' -> map drift t' = [0]).
Proof. intros H. specialize (H _ eq_refl). discriminate H. Qed.

Lemma insert_first_child_spec_witness :
  valid_tree ([Node 0 1] ++ Node 1 10 :: [Node 2 11])
  /\ size ([Node 0 1] ++ Node 1 10 :: [Node 2 11]) < max_size_example
  /\ insert_first_child max_size_example [Node 0 1; Node 1 10; Node 2 11] 1 20
     = Done ([Node 0 1; Node 0 10; Node 2 20; Node 2 11], 2%nat).
Proof.
  assert (Hv : valid_tree ([Node 0 1] ++ Node 1 10 :: [Node 2 11])) by valid_by_computation.
  assert (Hc : size ([Node 0 1] ++ Node 1 10 :: [Node 2 11]) < max_size_example)
    by compute_Z.
  repeat (split; [assumption|]).
  exact (insert_first_child_spec max_size_example max_size_example_representable
           [Node 0 1] [Node 2 11] (Node 1 10) 20 Hv Hc).
Defined.

(** C7, as stated: the new child gets one more than the target's earlier
    drift. *)
Lemma insert_first_child_drift_counterexample :
  ~ (forall t' it c,
       insert_first_child max_size_example [Node 1 10] 0 20 = Done (t', it) ->
       t' !! it = Some c -> drift c = drift (Node 1 10)).
Proof. intros H. specialize (H _ _ _ eq_refl eq_refl). discriminate H. Qed.

Lemma iterator_eqb_spec_witness :
  is_end {| it_m := Some 3%nat; level_m := 0 |} = true
  /\ is_end {| it_m := None; level_m := 0 |} = true
  /\ iterator_eqb {| it_m := Some 3%nat; level_m := 0 |} {| it_m := None; level_m := 0 |}
     = true.
Proof.
  repeat (split; [reflexivity|]).
  exact (proj1 (iterator_eqb_spec {| it_m := Some 3%nat; level_m := 0 |}
                  {| it_m := None; level_m := 0 |}) eq_refl eq_refl).
Defined.

Lemma insert_child_tree_empty_range_witness :
  (1 < length scenario1_tree)%nat
  /\ insert_child_tree max_size_example scenario1_tree 1 [] = Done (scenario1_tree, 2%nat).
Proof.
  assert (Hp : (1 < length scenario1_tree)%nat) by (cbn; lia).
  split; [exact Hp|].
  exact (insert_child_tree_empty_range max_size_example scenario1_tree 1 Hp).
Defined.

Lemma pop_back_push_back_drifted_witness :
  0 <= drift (Node 1 2) < drift_modulus /\ 0 <= 1 < drift_modulus
  /\ 1 < wrap (1 + drift (Node 1 2))
  /\ size ([Node 0 1] ++ [Node 1 2]) < max_size_example
  /\ exists t', push_back_drifted max_size_example ([Node 0 1] ++ [Node 1 2]) 3 1 = Done t'
                /\ pop_back t' = Done ([Node 0 1] ++ [Node 1 2]).
Proof.
  assert (H1 : 0 <= drift (Node 1 2) < drift_modulus) by compute_Z.
  assert (H2 : 0 <= 1 < drift_modulus) by compute_Z.
  assert (H3 : 1 < wrap (1 + drift (Node 1 2))) by compute_Z.
  assert (H4 : size ([Node 0 1] ++ [Node 1 2]) < max_size_example) by compute_Z.
  repeat (split; [assumption|]).
  exact (pop_back_push_back_drifted max_size_example [Node 0 1] (Node 1 2) 3 1 H1 H2 H3 H4).
Defined.

(** ** Instances of the further properties *)

Ltac decide_by_computation := apply (bool_decide_unpack _); vm_compute; exact I.

Lemma reachable_iff_valid_witness :
  valid_tree scenario1_tree /\ size scenario1_tree <= max_size_example
  /\ reachable max_size_example tree_range scenario1_tree.
Proof.
  assert (Hv : valid_tree scenario1_tree) by valid_by_computation.
  assert (Hs : size scenario1_tree <= max_size_example) by compute_Z.
  repeat (split; [assumption|]).
  exact (proj2 (reachable_iff_valid max_size_example max_size_example_nonneg
                  max_size_example_representable scenario1_tree) (conj Hv Hs)).
Defined.

Lemma push_back_drifted_level_witness :
  valid_tree ([Node 0 1] ++ [Node 2 2]) /\ 0 <= 1 < drift_modulus
  /\ push_back_drifted max_size_example ([Node 0 1] ++ [Node 2 2]) 3 1
     = Done [Node 0 1; Node 1 2; Node 2 3]
  /\ level_of [Node 0 1; Node 1 2; Node 2 3] (length ([Node 0 1] ++ [Node 2 2]))
     = level_of ([Node 0 1] ++ [Node 2 2]) (length [Node 0 1]) + 1 - 1.
Proof.
  assert (H1 : valid_tree ([Node 0 1] ++ [Node 2 2])) by valid_by_computation.
  assert (H2 : 0 <= 1 < drift_modulus) by compute_Z.
  assert (H3 : push_back_drifted max_size_example ([Node 0 1] ++ [Node 2 2]) 3 1
               = Done [Node 0 1; Node 1 2; Node 2 3]) by reflexivity.
  repeat (split; [assumption|]).
  apply (push_back_drifted_level max_size_example max_size_example_representable
           [Node 0 1] (Node 2 2) 3 1 _ H1 H2 H3).
Defined.

Lemma push_back_level_spec_witness :
  0 <= drift (Node 3 4) < drift_modulus /\ 0 <= 1 < drift_modulus
  /\ 1 < drift (Node 3 4)
  /\ size ([Node 0 1; Node 0 2; Node 1 3] ++ [Node 3 4]) < max_size_example
  /\ push_back_level max_size_example [Node 0 1; Node 0 2; Node 1 3; Node 3 4] 5 1
     = Done [Node 0 1; Node 0 2; Node 1 3; Node 2 4; Node 2 5]
  /\ 4 <= size ([Node 0 1; Node 0 2; Node 1 3] ++ [Node 3 4])
  /\ push_back_level 4 [Node 0 1; Node 0 2; Node 1 3; Node 3 4] 5 1
     = LengthError [Node 0 1; Node 0 2; Node 1 3; Node 2 4].
Proof.
  assert (H1 : 0 <= drift (Node 3 4) < drift_modulus) by compute_Z.
  assert (H2 : 0 <= 1 < drift_modulus) by compute_Z.
  assert (H3 : 1 < drift (Node 3 4)) by compute_Z.
  assert (H4 : size ([Node 0 1; Node 0 2; Node 1 3] ++ [Node 3 4]) < max_size_example)
    by compute_Z.
  assert (H5 : 4 <= size ([Node 0 1; Node 0 2; Node 1 3] ++ [Node 3 4])) by compute_Z.
  repeat (split; [assumption|]).
  split.
  - exact (proj1 (push_back_level_spec max_size_example [Node 0 1; Node 0 2; Node 1 3]
                    (Node 3 4) 5 1 H1 H2) H3 H4).
  - split; [exact H5|].
    exact (proj1 (proj2 (push_back_level_spec 4 [Node 0 1; Node 0 2; Node 1 3]
                           (Node 3 4) 5 1 H1 H2)) H3 H5).
Defined.

Lemma push_back_level_level_witness :
  valid_tree ([Node 0 1; Node 0 2; Node 1 3] ++ [Node 3 4]) /\ 0 <= 1 < drift_modulus
  /\ push_back_level max_size_example ([Node 0 1; Node 0 2; Node 1 3] ++ [Node 3 4]) 5 1
     = Done [Node 0 1; Node 0 2; Node 1 3; Node 2 4; Node 2 5]
  /\ level_of [Node 0 1; Node 0 2; Node 1 3; Node 2 4; Node 2 5]
       (length ([Node 0 1; Node 0 2; Node 1 3] ++ [Node 3 4])) = 1.
Proof.
  assert (H1 : valid_tree ([Node 0 1; Node 0 2; Node 1 3] ++ [Node 3 4]))
    by valid_by_computation.
  assert (H2 : 0 <= 1 < drift_modulus) by compute_Z.
  assert (H3 : push_back_level max_size_example
                 ([Node 0 1; Node 0 2; Node 1 3] ++ [Node 3 4]) 5 1
               = Done [Node 0 1; Node 0 2; Node 1 3; Node 2 4; Node 2 5]) by reflexivity.
  repeat (split; [assumption|]).
  apply (push_back_level_level max_size_example max_size_example_representable
           [Node 0 1; Node 0 2; Node 1 3] (Node 3 4) 5 1 _ H1 H2 H3).
Defined.

Lemma pop_back_push_back_level_witness :
  0 <= drift (Node 3 4) < drift_modulus /\ 0 <= 1 < drift (Node 3 4)
  /\ size ([Node 0 1; Node 0 2; Node 1 3] ++ [Node 3 4]) < max_size_example
  /\ exists t',
       push_back_level max_size_example ([Node 0 1; Node 0 2; Node 1 3] ++ [Node 3 4]) 5 1
       = Done t'
       /\ pop_back t' = Done ([Node 0 1; Node 0 2; Node 1 3] ++ [Node 3 4]).
Proof.
  assert (H1 : 0 <= drift (Node 3 4) < drift_modulus) by compute_Z.
  assert (H2 : 0 <= 1 < drift (Node 3 4)) by compute_Z.
  assert (H3 : size ([Node 0 1; Node 0 2; Node 1 3] ++ [Node 3 4]) < max_size_example)
    by compute_Z.
  repeat (split; [assumption|]).
  exact (pop_back_push_back_level max_size_example [Node 0 1; Node 0 2; Node 1 3]
           (Node 3 4) 5 1 H1 H2 H3).
Defined.

Lemma pop_back_spec_witness :
  valid_tree ([Node 0 1] ++ [Node 0 2; Node 3 3])
  /\ pop_back ([Node 0 1] ++ [Node 0 2; Node 3 3])
     = Done ([Node 0 1] ++ [set_drift (drift (Node 0 2) + drift (Node 3 3) - 1) (Node 0 2)]).
Proof.
  assert (H1 : valid_tree ([Node 0 1] ++ [Node 0 2; Node 3 3])) by valid_by_computation.
  split; [exact H1|].
  exact (proj1 (proj2 pop_back_spec [Node 0 1] (Node 0 2) (Node 3 3) H1)).
Defined.

Lemma erase_leaf_last_pop_back_witness :
  is_leaf (Node 3 3) = true
  /\ erase_leaf ([Node 0 1] ++ [Node 0 2; Node 3 3]) (S (length [Node 0 1]))
     = bind (pop_back ([Node 0 1] ++ [Node 0 2; Node 3 3]))
         (fun t' => Done (t', S (length [Node 0 1]))).
Proof.
  split; [reflexivity|].
  exact (erase_leaf_last_pop_back [Node 0 1] (Node 0 2) (Node 3 3) eq_refl).
Defined.

Lemma erase_leaf_edges_witness :
  scenario1_tree !! 1%nat = Some (Node 0 2) /\ is_leaf (Node 0 2) = false
  /\ erase_leaf scenario1_tree 1 = AssertionFailed.
Proof.
  repeat (split; [reflexivity|]).
  exact (proj1 (proj2 erase_leaf_edges) scenario1_tree 1%nat (Node 0 2) eq_refl eq_refl).
Defined.

Lemma erase_leaf_spec_witness :
  valid_tree ([Node 0 1; Node 0 2] ++ Node 1 3 :: Node 2 4 :: [Node 0 5; Node 3 6])
  /\ is_leaf (Node 2 4) = true
  /\ erase_leaf ([Node 0 1; Node 0 2] ++ Node 1 3 :: Node 2 4 :: [Node 0 5; Node 3 6])
       (S (length [Node 0 1; Node 0 2]))
     = Done ([Node 0 1; Node 0 2]
               ++ set_drift (drift (Node 1 3) + drift (Node 2 4) - 1) (Node 1 3)
               :: [Node 0 5; Node 3 6],
             S (length [Node 0 1; Node 0 2])).
Proof.
  assert (H1 : valid_tree ([Node 0 1; Node 0 2] ++ Node 1 3 :: Node 2 4
                             :: [Node 0 5; Node 3 6])) by valid_by_computation.
  repeat (split; [first [assumption|reflexivity]|]).
  exact (proj1 (erase_leaf_spec [Node 0 1; Node 0 2] [Node 0 5; Node 3 6]
                  (Node 1 3) (Node 2 4) H1 eq_refl)).
Defined.

Lemma erase_leaf_insert_first_child_witness :
  0 <= drift (Node 1 10) /\ 1 + drift (Node 1 10) < drift_modulus
  /\ size ([] ++ Node 1 10 :: []) < max_size_example
  /\ exists t' it,
       insert_first_child max_size_example ([] ++ Node 1 10 :: [])
         (length (@nil (drift_node Z))) 20 = Done (t', it)
       /\ erase_leaf t' it = Done ([] ++ Node 1 10 :: [], it).
Proof.
  assert (H1 : 0 <= drift (Node 1 10)) by compute_Z.
  assert (H2 : 1 + drift (Node 1 10) < drift_modulus) by compute_Z.
  assert (H3 : size ([] ++ Node 1 10 :: []) < max_size_example) by compute_Z.
  repeat (split; [assumption|]).
  exact (erase_leaf_insert_first_child max_size_example [] [] (Node 1 10) 20 H1 H2 H3).
Defined.

Lemma insert_sibling_spec_witness :
  size ([Node 0 1] ++ Node 2 2 :: []) < max_size_example
  /\ insert_sibling max_size_example ([Node 0 1] ++ Node 2 2 :: []) (length [Node 0 1]) 9
     = Done ([Node 0 1] ++ Node 1 9 :: Node 2 2 :: [], length [Node 0 1]).
Proof.
  assert (H1 : size ([Node 0 1] ++ Node 2 2 :: []) < max_size_example) by compute_Z.
  split; [exact H1|].
  exact (proj1 (insert_sibling_spec max_size_example [Node 0 1] [] (Node 2 2) 9 H1)).
Defined.

Lemma erase_leaf_insert_sibling_witness :
  0 <= drift (Node 0 1) < drift_modulus
  /\ size ([] ++ Node 0 1 :: Node 2 2 :: []) < max_size_example
  /\ exists t' it,
       insert_sibling max_size_example ([] ++ Node 0 1 :: Node 2 2 :: [])
         (S (length (@nil (drift_node Z)))) 9 = Done (t', it)
       /\ erase_leaf t' it = Done ([] ++ Node 0 1 :: Node 2 2 :: [], it).
Proof.
  assert (H1 : 0 <= drift (Node 0 1) < drift_modulus) by compute_Z.
  assert (H2 : size ([] ++ Node 0 1 :: Node 2 2 :: []) < max_size_example) by compute_Z.
  repeat (split; [assumption|]).
  exact (proj1 (erase_leaf_insert_sibling max_size_example) [] [] (Node 0 1) (Node 2 2) 9
           H1 H2).
Defined.

Lemma insert_child_tree_singleton_witness :
  size scenario1_tree < max_size_example
  /\ insert_child_tree max_size_example scenario1_tree 2 [Node 7 9]
     = insert_first_child max_size_example scenario1_tree 2 9
  /\ insert_first_child max_size_example scenario1_tree 2 9
     = Done ([Node 0 1; Node 0 2; Node 0 3; Node 2 9; Node 2 4; Node 0 5; Node 3 6], 3%nat)
  /\ 6 <= size scenario1_tree
  /\ insert_child_tree 6 scenario1_tree 2 [Node 7 9] = LengthError scenario1_tree
  /\ insert_first_child 6 scenario1_tree 2 9
     = LengthError [Node 0 1; Node 0 2; Node 0 3; Node 2 4; Node 0 5; Node 3 6].
Proof.
  assert (H1 : size scenario1_tree < max_size_example) by compute_Z.
  assert (H2 : 6 <= size scenario1_tree) by compute_Z.
  split; [exact H1|]. split.
  - exact (proj1 (insert_child_tree_singleton max_size_example max_size_example_representable
                    scenario1_tree 2 7 9) H1).
  - split; [reflexivity|]. split; [exact H2|].
    exact (proj2 (insert_child_tree_singleton 6 ltac:(compute_Z) scenario1_tree 2 7 9)
             [Node 0 1; Node 0 2] [Node 2 4; Node 0 5; Node 3 6] (Node 1 3)
             eq_refl eq_refl H2).
Defined.

Lemma insert_child_tree_last_drift_witness :
  max_size_example < drift_modulus
  /\ insert_child_tree max_size_example scenario1_tree 1 ([Node 0 7] ++ [Node 5 8])
     = insert_child_tree max_size_example scenario1_tree 1 ([Node 0 7] ++ [Node 1 8]).
Proof.
  split; [exact max_size_example_representable|].
  exact (insert_child_tree_last_drift max_size_example max_size_example_representable
           scenario1_tree [Node 0 7] 1 5 1 8).
Defined.

Lemma erase_subtree_insert_child_tree_witness :
  valid_tree ([Node 0 1] ++ Node 2 2 :: []) /\ 0 < drift (Node 2 2)
  /\ tree_range ([Node 0 7] ++ [Node 5 8])
  /\ size ([Node 0 1] ++ Node 2 2 :: []) + size ([Node 0 7] ++ [Node 5 8])
     <= max_size_example
  /\ exists t' last',
       insert_child_tree max_size_example ([Node 0 1] ++ Node 2 2 :: [])
         (length [Node 0 1]) ([Node 0 7] ++ [Node 5 8])
       = Done (t', (length [Node 0 1] + length ([Node 0 7] ++ [Node 5 8]))%nat)
       /\ valid_tree t'
       /\ subtree_nodes t' (length [Node 0 1]) = Done ([Node 0 7] ++ [last'])
       /\ data last' = data (Node 5 8)
       /\ erase_subtree t' (length [Node 0 1])
          = Done ([Node 0 1] ++ Node 2 2 :: [], (length [Node 0 1] + 1)%nat).
Proof.
  assert (H1 : valid_tree ([Node 0 1] ++ Node 2 2 :: [])) by valid_by_computation.
  assert (H2 : 0 < drift (Node 2 2)) by compute_Z.
  assert (H3 : tree_range ([Node 0 7] ++ [Node 5 8]))
    by (unfold tree_range, drifts_in_range; decide_by_computation).
  assert (H4 : size ([Node 0 1] ++ Node 2 2 :: []) + size ([Node 0 7] ++ [Node 5 8])
               <= max_size_example) by compute_Z.
  repeat (split; [assumption|]).
  exact (erase_subtree_insert_child_tree max_size_example max_size_example_representable
           [Node 0 1] [] [Node 0 7] (Node 2 2) (Node 5 8) H1 H2 H3 H4).
Defined.

Lemma subtree_nodes_insert_first_child_witness :
  valid_tree ([Node 0 1] ++ Node 0 2 :: [Node 1 3; Node 2 4; Node 0 5; Node 3 6])
  /\ size ([Node 0 1] ++ Node 0 2 :: [Node 1 3; Node 2 4; Node 0 5; Node 3 6])
     < max_size_example
  /\ exists t' ns new,
       insert_first_child max_size_example
         ([Node 0 1] ++ Node 0 2 :: [Node 1 3; Node 2 4; Node 0 5; Node 3 6])
         (length [Node 0 1]) 9 = Done (t', S (length [Node 0 1]))
       /\ t' !! S (length [Node 0 1]) = Some new /\ data new = 9 /\ is_leaf new = true
       /\ subtree_nodes
            ([Node 0 1] ++ Node 0 2 :: [Node 1 3; Node 2 4; Node 0 5; Node 3 6])
            (length [Node 0 1]) = Done ns
       /\ subtree_nodes t' (length [Node 0 1]) = Done (new :: ns).
Proof.
  assert (H1 : valid_tree ([Node 0 1] ++ Node 0 2
                             :: [Node 1 3; Node 2 4; Node 0 5; Node 3 6]))
    by valid_by_computation.
  assert (H2 : size ([Node 0 1] ++ Node 0 2 :: [Node 1 3; Node 2 4; Node 0 5; Node 3 6])
               < max_size_example) by compute_Z.
  repeat (split; [assumption|]).
  exact (subtree_nodes_insert_first_child max_size_example max_size_example_representable
           [Node 0 1] [Node 1 3; Node 2 4; Node 0 5; Node 3 6] (Node 0 2) 9 H1 H2).
Defined.

Lemma erase_subtree_idempotent_witness :
  valid_tree scenario1_tree
  /\ erase_subtree scenario1_tree 1
     = Done ([Node 0 1; Node 1 2; Node 0 5; Node 3 6], 2%nat)
  /\ subtree_nodes [Node 0 1; Node 1 2; Node 0 5; Node 3 6] 1 = Done []
  /\ erase_subtree [Node 0 1; Node 1 2; Node 0 5; Node 3 6] 1
     = Done ([Node 0 1; Node 1 2; Node 0 5; Node 3 6], 2%nat).
Proof.
  assert (H1 : valid_tree scenario1_tree) by valid_by_computation.
  assert (H2 : erase_subtree scenario1_tree 1
               = Done ([Node 0 1; Node 1 2; Node 0 5; Node 3 6], 2%nat)) by reflexivity.
  repeat (split; [assumption|]).
  exact (proj2 (proj2 (erase_subtree_idempotent scenario1_tree 1 _ _ H1 H2))).
Defined.

Lemma erase_subtree_distance_witness :
  valid_tree ([Node 0 1] ++ Node 0 2 :: [Node 1 3; Node 2 4; Node 0 5; Node 3 6])
  /\ exists k t',
       subtree_distance
         ([Node 0 1] ++ Node 0 2 :: [Node 1 3; Node 2 4; Node 0 5; Node 3 6])
         (length [Node 0 1]) = Done k
       /\ erase_subtree
            ([Node 0 1] ++ Node 0 2 :: [Node 1 3; Node 2 4; Node 0 5; Node 3 6])
            (length [Node 0 1]) = Done (t', (length [Node 0 1] + 1)%nat)
       /\ size t'
          = size ([Node 0 1] ++ Node 0 2 :: [Node 1 3; Node 2 4; Node 0 5; Node 3 6]) - k
       /\ map data t'
          = map data [Node 0 1] ++ data (Node 0 2)
              :: map data (drop (Z.to_nat k) [Node 1 3; Node 2 4; Node 0 5; Node 3 6]).
Proof.
  assert (H1 : valid_tree ([Node 0 1] ++ Node 0 2
                             :: [Node 1 3; Node 2 4; Node 0 5; Node 3 6]))
    by valid_by_computation.
  split; [exact H1|].
  exact (erase_subtree_distance [Node 0 1] [Node 1 3; Node 2 4; Node 0 5; Node 3 6]
           (Node 0 2) H1).
Defined.

Lemma push_root_levels_witness :
  valid_tree [Node 1 2] /\ size [Node 1 2] < max_size_example
  /\ exists t',
       push_root max_size_example [Node 1 2] 1 = Done t'
       /\ valid_tree t'
       /\ level_of t' 0 = 0
       /\ forall i, (i < length [Node 1 2])%nat
                    -> level_of t' (S i) = level_of [Node 1 2] i + 1.
Proof.
  assert (H1 : valid_tree [Node 1 2]) by valid_by_computation.
  assert (H2 : size [Node 1 2] < max_size_example) by compute_Z.
  repeat (split; [assumption|]).
  exact (push_root_levels max_size_example max_size_example_representable
           [Node 1 2] 1 H1 H2).
Defined.

Lemma erase_subtree_push_root_witness :
  valid_tree scenario1_tree /\ size scenario1_tree < max_size_example
  /\ exists t',
       push_root max_size_example scenario1_tree 0 = Done t'
       /\ erase_subtree t' 0 = Done ([Node 1 0], 1%nat).
Proof.
  assert (H1 : valid_tree scenario1_tree) by valid_by_computation.
  assert (H2 : size scenario1_tree < max_size_example) by compute_Z.
  repeat (split; [assumption|]).
  exact (erase_subtree_push_root max_size_example max_size_example_representable
           scenario1_tree 0 H1 H2).
Defined.

Lemma iterator_eqb_equivalence_witness :
  iterator_eqb {| it_m := Some 3%nat; level_m := 0 |} {| it_m := None; level_m := 0 |} = true
  /\ iterator_eqb {| it_m := None; level_m := 0 |} {| it_m := Some 5%nat; level_m := 0 |}
     = true
  /\ iterator_eqb {| it_m := Some 3%nat; level_m := 0 |}
       {| it_m := Some 5%nat; level_m := 0 |} = true.
Proof.
  repeat (split; [reflexivity|]).
  exact (proj2 (proj2 iterator_eqb_equivalence)
           {| it_m := Some 3%nat; level_m := 0 |} {| it_m := None; level_m := 0 |}
           {| it_m := Some 5%nat; level_m := 0 |} eq_refl eq_refl).
Defined.

Lemma subtree_nodes_push_back_witness :
  valid_tree ([] ++ [Node 1 1])
  /\ push_back_child max_size_example ([] ++ [Node 1 1]) 2 = Done [Node 0 1; Node 2 2]
  /\ exists new,
       [Node 0 1; Node 2 2] = [] ++ [set_drift 0 (Node 1 1); new] /\ data new = 2
       /\ subtree_nodes [Node 0 1; Node 2 2] (length (@nil (drift_node Z))) = Done [new].
Proof.
  assert (H1 : valid_tree ([] ++ [Node 1 1])) by valid_by_computation.
  assert (H2 : push_back_child max_size_example ([] ++ [Node 1 1]) 2
               = Done [Node 0 1; Node 2 2]) by reflexivity.
  repeat (split; [assumption|]).
  exact (proj1 (subtree_nodes_push_back max_size_example max_size_example_representable
                  [] (Node 1 1) 2 H1) _ H2).
Defined.

Lemma subtree_nodes_insert_child_tree_witness :
  valid_tree ([Node 0 1] ++ Node 0 2 :: [Node 1 3; Node 2 4; Node 0 5; Node 3 6])
  /\ tree_range ([Node 0 7] ++ [Node 5 8])
  /\ size ([Node 0 1] ++ Node 0 2 :: [Node 1 3; Node 2 4; Node 0 5; Node 3 6])
     + size ([Node 0 7] ++ [Node 5 8]) <= max_size_example
  /\ exists t' it last' ns,
       insert_child_tree max_size_example
         ([Node 0 1] ++ Node 0 2 :: [Node 1 3; Node 2 4; Node 0 5; Node 3 6])
         (length [Node 0 1]) ([Node 0 7] ++ [Node 5 8]) = Done (t', it)
       /\ data last' = data (Node 5 8)
       /\ subtree_nodes
            ([Node 0 1] ++ Node 0 2 :: [Node 1 3; Node 2 4; Node 0 5; Node 3 6])
            (length [Node 0 1]) = Done ns
       /\ subtree_nodes t' (length [Node 0 1]) = Done ([Node 0 7] ++ [last'] ++ ns).
Proof.
  assert (H1 : valid_tree ([Node 0 1] ++ Node 0 2
                             :: [Node 1 3; Node 2 4; Node 0 5; Node 3 6]))
    by valid_by_computation.
  assert (H2 : tree_range ([Node 0 7] ++ [Node 5 8]))
    by (unfold tree_range, drifts_in_range; decide_by_computation).
  assert (H3 : size ([Node 0 1] ++ Node 0 2 :: [Node 1 3; Node 2 4; Node 0 5; Node 3 6])
               + size ([Node 0 7] ++ [Node 5 8]) <= max_size_example) by compute_Z.
  repeat (split; [assumption|]).
  exact (subtree_nodes_insert_child_tree max_size_example max_size_example_representable
           [Node 0 1] [Node 1 3; Node 2 4; Node 0 5; Node 3 6] [Node 0 7]
           (Node 0 2) (Node 5 8) H1 H2 H3).
Defined.

Lemma insert_first_child_levels_witness :
  valid_tree ([Node 0 1] ++ Node 2 2 :: [])
  /\ insert_first_child max_size_example ([Node 0 1] ++ Node 2 2 :: []) (length [Node 0 1]) 9
     = Done ([Node 0 1; Node 0 2; Node 3 9], 2%nat)
  /\ level_of [Node 0 1; Node 0 2; Node 3 9] (S (length [Node 0 1]))
     = level_of ([Node 0 1] ++ Node 2 2 :: []) (length [Node 0 1]) + 1.
Proof.
  assert (H1 : valid_tree ([Node 0 1] ++ Node 2 2 :: [])) by valid_by_computation.
  assert (H2 : insert_first_child max_size_example ([Node 0 1] ++ Node 2 2 :: [])
                 (length [Node 0 1]) 9
               = Done ([Node 0 1; Node 0 2; Node 3 9], 2%nat)) by reflexivity.
  repeat (split; [assumption|]).
  apply (insert_first_child_levels max_size_example max_size_example_representable
           [Node 0 1] [] (Node 2 2) 9 _ _ H1 H2).
Defined.

Lemma erase_subtree_levels_witness :
  valid_tree ([Node 0 1] ++ Node 0 2 :: [Node 1 3; Node 2 4; Node 0 5; Node 3 6])
  /\ erase_subtree ([Node 0 1] ++ Node 0 2 :: [Node 1 3; Node 2 4; Node 0 5; Node 3 6])
       (length [Node 0 1])
     = Done ([Node 0 1; Node 1 2; Node 0 5; Node 3 6], 2%nat)
  /\ forall k,
       level_of [Node 0 1; Node 1 2; Node 0 5; Node 3 6] (length [Node 0 1] + 1 + k)
       = level_of ([Node 0 1] ++ Node 0 2 :: [Node 1 3; Node 2 4; Node 0 5; Node 3 6])
           (length [Node 0 1] + 1
            + (length ([Node 0 1] ++ Node 0 2 :: [Node 1 3; Node 2 4; Node 0 5; Node 3 6])
               - length [Node 0 1; Node 1 2; Node 0 5; Node 3 6]) + k).
Proof.
  assert (H1 : valid_tree ([Node 0 1] ++ Node 0 2
                             :: [Node 1 3; Node 2 4; Node 0 5; Node 3 6]))
    by valid_by_computation.
  assert (H2 : erase_subtree
                 ([Node 0 1] ++ Node 0 2 :: [Node 1 3; Node 2 4; Node 0 5; Node 3 6])
                 (length [Node 0 1])
               = Done ([Node 0 1; Node 1 2; Node 0 5; Node 3 6], 2%nat)) by reflexivity.
  repeat (split; [assumption|]).
  apply (erase_subtree_levels [Node 0 1] [Node 1 3; Node 2 4; Node 0 5; Node 3 6]
           (Node 0 2) _ _ H1 H2).
Defined.

Lemma insert_child_tree_levels_witness :
  valid_tree ([Node 0 1] ++ Node 2 2 :: [])
  /\ tree_range ([Node 0 7] ++ [Node 5 8])
  /\ insert_child_tree max_size_example ([Node 0 1] ++ Node 2 2 :: [])
       (length [Node 0 1]) ([Node 0 7] ++ [Node 5 8])
     = Done ([Node 0 1; Node 0 2; Node 0 7; Node 4 8], 3%nat)
  /\ forall k, (k <= length [Node 0 7])%nat ->
       level_of [Node 0 1; Node 0 2; Node 0 7; Node 4 8] (length [Node 0 1] + 1 + k)
       = level_of ([Node 0 1] ++ Node 2 2 :: []) (length [Node 0 1]) + 1
         + level_of ([Node 0 7] ++ [Node 5 8]) k.
Proof.
  assert (H1 : valid_tree ([Node 0 1] ++ Node 2 2 :: [])) by valid_by_computation.
  assert (H2 : tree_range ([Node 0 7] ++ [Node 5 8]))
    by (unfold tree_range, drifts_in_range; decide_by_computation).
  assert (H3 : insert_child_tree max_size_example ([Node 0 1] ++ Node 2 2 :: [])
                 (length [Node 0 1]) ([Node 0 7] ++ [Node 5 8])
               = Done ([Node 0 1; Node 0 2; Node 0 7; Node 4 8], 3%nat)) by reflexivity.
  repeat (split; [assumption|]).
  apply (insert_child_tree_levels max_size_example max_size_example_representable
           [Node 0 1] [] [Node 0 7] (Node 2 2) (Node 5 8) _ _ H1 H2 H3).
Defined.

Lemma reachable_invariant_witness :
  reachable max_size_example tree_range [Node 0 1; Node 2 2]
  /\ drift_sum [Node 0 1; Node 2 2] = size [Node 0 1; Node 2 2]
  /\ (forall l, last [Node 0 1; Node 2 2] = Some l -> is_leaf l = true /\ 0 < drift l)
  /\ checkInvariant [Node 0 1; Node 2 2] = true.
Proof.
  assert (Hr : reachable max_size_example tree_range [Node 0 1; Node 2 2]).
  { apply (reachable_call _ _ [Node 1 1]).
    - apply (reachable_call _ _ []); [apply reachable_empty|].
      apply (call_push_root _ _ [] 1). reflexivity.
    - apply (call_push_back_child _ _ [Node 1 1] 2). reflexivity. }
  split; [exact Hr|].
  exact (reachable_invariant max_size_example max_size_example_nonneg
           max_size_example_representable _ Hr).
Defined.
